(** * nodekit-seq: the block index and range queries of [rpc/jsonrpc_server.go]

    A shallow embedding of the JSON-RPC server's in-memory block index
    ([JSONRPCServer]), of its ingestion entry point [AcceptBlock] and of the
    five read handlers, followed by the properties of the index that the
    specification states.

    Conventions.
    - [uint64] and [int64] values are integers of [Z]; the one unsigned
      subtraction of the file ([Height - 1]) is written with its wrap-around.
    - A Go [map] is a [gmap]; a pointer stored in a map is an [option]
      ([None] is the nil pointer), so that reading an absent key and reading
      a stored nil pointer both give [None], as in Go.
    - [btree.Map] is an association list kept in ascending key order.
    - A handler receives its [reply] pointer as a location of a store of
      response objects; [&res] allocates a new location.
    - A run-time panic (nil dereference, index out of range) is the outcome
      [Panic]; a returned [error] is [Return (Some e)]; [return nil] is
      [Return None]. *)

From Stdlib Require Import ZArith String Ascii.
From Stdlib.Strings Require Import Byte.
From stdpp Require Import base option list sorting gmap strings.

Local Open Scope Z_scope.

(** ** Machine integers *)

Definition uint64 := Z.
Definition int64 := Z.

Definition MaxUint64 : Z := 2 ^ 64 - 1.

(** Subtraction of [uint64] operands, as Go defines it: modulo [2^64]. *)
Definition uint64_sub (a b : uint64) : uint64 := (a - b) mod 2 ^ 64.

(** ** Errors and outcomes *)

Definition error := string.

Inductive outcome : Type :=
| Return (err : option error)
| Panic.

(** ** [encoding/hex] *)

Module hex.
Definition hextable : string := "0123456789abcdef".

Definition digit (n : N) : ascii :=
  match String.get (N.to_nat n) hextable with
  | Some c => c
  | None => "0"%char
  end.

(** [hex.EncodeToString]: two digits per byte, high nibble first. *)
Fixpoint EncodeToString (src : list byte) : string :=
  match src with
  | [] => EmptyString
  | v :: rest =>
      String (digit (N.shiftr (Byte.to_N v) 4))
        (String (digit (N.land (Byte.to_N v) 15)) (EncodeToString rest))
  end.
End hex.

(** ** [ids.ID]: a 32-byte identifier, read as a 256-bit number *)

Module ids.
Definition ID := N.
(** The zero value [ids.ID{}], also [ids.Empty]. *)
Definition Empty : ID := 0%N.
End ids.

(** ** [tidwall/btree]: [btree.Map] with integer keys *)

Module btree.
Abbreviation Map V := (list (Z * V)) (only parsing).

Definition empty {V : Type} : Map V := [].

Fixpoint Get {V : Type} (key : Z) (m : Map V) : option V :=
  match m with
  | [] => None
  | (k, v) :: m' => if k =? key then Some v else Get key m'
  end.

(** [Set]: insert in key order, or replace the value of an existing key. *)
Fixpoint Set_ {V : Type} (key : Z) (value : V) (m : Map V) : Map V :=
  match m with
  | [] => [(key, value)]
  | (k, v) :: m' =>
      if key <? k then (key, value) :: (k, v) :: m'
      else if key =? k then (key, value) :: m'
      else (k, v) :: Set_ key value m'
  end.

(** The entries from the first key [>= pivot] on. *)
Fixpoint seek {V : Type} (pivot : Z) (m : Map V) : Map V :=
  match m with
  | [] => []
  | (k, v) :: m' => if k <? pivot then seek pivot m' else m
  end.

(** Calls [iter] on the entries in order until it answers [false]. The
    iterator threads the variables it captures as a state [S]; [None] is a
    panic inside the iterator, which ends the scan. *)
Fixpoint iterate {V S : Type} (iter : Z → V → S → option (bool * S))
    (m : Map V) (s : S) : option S :=
  match m with
  | [] => Some s
  | (k, v) :: m' =>
      match iter k v s with
      | None => None
      | Some (true, s') => iterate iter m' s'
      | Some (false, s') => Some s'
      end
  end.

(** [Ascend(pivot, iter)]: ascending scan over the keys [>= pivot]. *)
Definition Ascend {V S : Type} (pivot : Z)
    (iter : Z → V → S → option (bool * S)) (m : Map V) (s : S) : option S :=
  iterate iter (seek pivot m) s.

Definition keys {V : Type} (m : Map V) : list Z := m.*1.

(** Keys strictly ascending: the shape every tree built by [Set_] has. *)
Definition ascending {V : Type} (m : Map V) : Prop :=
  StronglySorted Z.lt (keys m).
End btree.

(** ** Chain data *)

(** Modelled from the spec: the declaration of [actions.SequencerMsg] is not
    among the sources; its two fields are the ones [AcceptBlock] reads. Every
    other action kind of the registry is [OtherAction]. *)
Inductive Action : Type :=
| SequencerMsg (ChainId : list byte) (Data : list byte)
| OtherAction (typeID : Z).

(** [chain.Transaction]: the action, and the identifier [tx.ID()] returns. *)
Module Transaction.
Record t : Type := mk { ID : ids.ID; Action : Action }.
End Transaction.

Module Result.
Record t : Type := mk { Success : bool }.
End Result.

Module StatefulBlock.
Record t : Type := mk {
  Prnt : ids.ID;
  Tmstmp : int64;
  Hght : uint64;
  Txs : list Transaction.t;
  StateRoot : ids.ID
}.
End StatefulBlock.

(** [chain.StatelessBlock] embeds its [*StatefulBlock]; [blk.Txs], [blk.Hght]
    and the like are fields of the embedded block. *)
Module StatelessBlock.
Record t : Type := mk { StatefulBlock : StatefulBlock.t }.
Definition Prnt (b : t) := StatefulBlock.Prnt (StatefulBlock b).
Definition Tmstmp (b : t) := StatefulBlock.Tmstmp (StatefulBlock b).
Definition Hght (b : t) := StatefulBlock.Hght (StatefulBlock b).
Definition Txs (b : t) := StatefulBlock.Txs (StatefulBlock b).
Definition StateRoot (b : t) := StatefulBlock.StateRoot (StatefulBlock b).
End StatelessBlock.

(** Modelled from the spec: the declaration of [types.SEQTransaction] is not
    among the sources; the fields are those of the literal in [AcceptBlock]. *)
Module SEQTransaction.
Record t : Type := mk {
  Namespace : string;
  Tx_id : ids.ID;
  Transaction : list byte;
  Index : uint64
}.
End SEQTransaction.

(** Modelled from the spec: the declaration of [types.SequencerBlock] is not
    among the sources; the fields are those of the literal in [AcceptBlock]. *)
Module SequencerBlock.
Record t : Type := mk {
  StateRoot : ids.ID;
  Prnt : ids.ID;
  Tmstmp : int64;
  Hght : uint64;
  Txs : gmap string (list SEQTransaction.t)
}.
End SequencerBlock.

(** ** The collaborators outside the repository

    [ids.FromString] (avalanchego) and the block codec of hypersdk's [rpc]
    package are injected. [rpc.UnpackBlockMessage] returns two pointers, a
    slice and an error; the fee dimensions it also returns are dropped by
    [AcceptBlock] and left out. The parser argument is fixed by the server. *)

Module Unpacked.
Record t : Type := mk {
  block : option StatefulBlock.t;
  results : list Result.t;
  id : option ids.ID;
  err : option error
}.
End Unpacked.

Class External : Type := {
  ids_FromString : string → error + ids.ID;
  rpc_PackBlockMessage : StatelessBlock.t → error + list byte;
  rpc_UnpackBlockMessage : list byte → Unpacked.t
}.

(** ** The server *)

Record JSONRPCServer : Type := mkServer {
  headers : gmap ids.ID (option StatefulBlock.t);
  blocksWithValidTxs : gmap ids.ID SequencerBlock.t;
  idsByHeight : btree.Map ids.ID;
  blocks : btree.Map uint64
}.

Definition NewJSONRPCServer : JSONRPCServer :=
  {| headers := ∅; blocksWithValidTxs := ∅;
     idsByHeight := btree.empty; blocks := btree.empty |}.

(** [j.headers[id]]: the stored pointer, nil when the key is absent. *)
Definition headers_at (j : JSONRPCServer) (id : ids.ID) : option StatefulBlock.t :=
  match headers j !! id with
  | Some p => p
  | None => None
  end.

(** ** Requests and responses *)

Module BlockInfo.
Record t : Type := mk { BlockId : ids.ID }.
(** The zero value [BlockInfo{}]. *)
Definition zero : t := mk ids.Empty.
End BlockInfo.

Module BlockHeadersResponse.
Record t : Type := mk {
  From : uint64;
  Blocks : list BlockInfo.t;
  Prev : BlockInfo.t;
  Next : BlockInfo.t
}.
Definition zero : t := mk 0 [] BlockInfo.zero BlockInfo.zero.
End BlockHeadersResponse.

Module TransactionResponse.
Record t : Type := mk { Txs : list Transaction.t; BlockId : ids.ID }.
Definition zero : t := mk [] ids.Empty.
End TransactionResponse.

Module SEQTransactionResponse.
Record t : Type := mk { Txs : list SEQTransaction.t; BlockId : ids.ID }.
Definition zero : t := mk [] ids.Empty.
End SEQTransactionResponse.

Module GetBlockHeadersByHeightArgs.
Record t : Type := mk { Height : uint64; End_ : int64 }.
End GetBlockHeadersByHeightArgs.

Module GetBlockHeadersIDArgs.
Record t : Type := mk { ID : string; End_ : int64 }.
End GetBlockHeadersIDArgs.

Module GetBlockHeadersByStartArgs.
Record t : Type := mk { Start : int64; End_ : int64 }.
End GetBlockHeadersByStartArgs.

Module GetBlockTransactionsArgs.
Record t : Type := mk { ID : string }.
End GetBlockTransactionsArgs.

Module GetBlockTransactionsByNamespaceArgs.
Record t : Type := mk { ID : string; Namespace : string }.
End GetBlockTransactionsByNamespaceArgs.

(** ** Response objects behind pointers

    A store of response objects; a pointer is an index into it. *)

Definition store (A : Type) := list A.

(** [&res]: the object moves to a new location. *)
Definition alloc {A : Type} (σ : store A) (v : A) : nat * store A :=
  (length σ, σ ++ [v]).

(** ** The windowed scan shared by the three block-header queries *)

(** The iterator passed to [Ascend] (lines 225-252, and again, statement for
    statement, 298-316 and 353-371). It captures [blocks] and [Next]; the
    state is that pair. Reading [blk.Hght] through a nil [blk] panics. *)
Definition scanIter (j : JSONRPCServer) (End_ : int64)
    (heightKey : uint64) (id : ids.ID) (s : list BlockInfo.t * BlockInfo.t)
    : option (bool * (list BlockInfo.t * BlockInfo.t)) :=
  let '(blocks, Next) := s in
  match headers_at j id with
  | None => None
  | Some blk =>
      let blocks :=
        if StatefulBlock.Hght blk =? heightKey
        then blocks ++ [BlockInfo.mk id]
        else blocks in
      if StatefulBlock.Tmstmp blk >? End_
      then Some (false, (blocks, BlockInfo.mk id))
      else Some (true, (blocks, Next))
  end.

(** From the lookup of [Prev] to [return nil] (lines 212-258; lines 285-324
    and 340-380 are the same statements with [firstBlock] for [args.Height]).
    The result [res] is built, its address is assigned to the local variable
    [reply], and the function returns: the object the caller passed, at the
    location [reply] of the store, is not written. *)
Definition headersFrom (j : JSONRPCServer) (firstBlock : uint64) (End_ : int64)
    (reply : nat) (σ : store BlockHeadersResponse.t)
    : outcome * store BlockHeadersResponse.t :=
  let Prev :=
    match btree.Get (uint64_sub firstBlock 1) (idsByHeight j) with
    | Some prevBlkId => BlockInfo.mk prevBlkId
    | None => BlockInfo.zero
    end in
  match btree.Ascend firstBlock (scanIter j End_) (idsByHeight j)
          ([], BlockInfo.zero) with
  | None => (Panic, σ)
  | Some (blocks, Next) =>
      let res := BlockHeadersResponse.mk firstBlock blocks Prev Next in
      let '(reply, σ) := alloc σ res in
      (Return None, σ)
  end.

Definition getBlockHeadersByHeight (j : JSONRPCServer)
    (args : GetBlockHeadersByHeightArgs.t)
    (reply : nat) (σ : store BlockHeadersResponse.t)
    : outcome * store BlockHeadersResponse.t :=
  headersFrom j (GetBlockHeadersByHeightArgs.Height args)
    (GetBlockHeadersByHeightArgs.End_ args) reply σ.

Definition getBlockHeadersID `{External} (j : JSONRPCServer)
    (args : GetBlockHeadersIDArgs.t)
    (reply : nat) (σ : store BlockHeadersResponse.t)
    : outcome * store BlockHeadersResponse.t :=
  if negb (String.eqb (GetBlockHeadersIDArgs.ID args) "") then
    match ids_FromString (GetBlockHeadersIDArgs.ID args) with
    | inl err => (Return (Some err), σ)
    | inr id =>
        match headers_at j id with
        | None => (Panic, σ)
        | Some block =>
            let firstBlock := StatefulBlock.Hght block in
            headersFrom j firstBlock (GetBlockHeadersIDArgs.End_ args) reply σ
        end
    end
  else (Return None, σ).

Definition getBlockHeadersByStart (j : JSONRPCServer)
    (args : GetBlockHeadersByStartArgs.t)
    (reply : nat) (σ : store BlockHeadersResponse.t)
    : outcome * store BlockHeadersResponse.t :=
  let firstBlock :=
    match btree.Get (GetBlockHeadersByStartArgs.Start args) (blocks j) with
    | Some heightFound => heightFound
    | None => 0
    end in
  headersFrom j firstBlock (GetBlockHeadersByStartArgs.End_ args) reply σ.

(** ** The transaction queries *)

Definition getBlockTransactions `{External} (j : JSONRPCServer)
    (args : GetBlockTransactionsArgs.t)
    (reply : nat) (σ : store TransactionResponse.t)
    : outcome * store TransactionResponse.t :=
  if negb (String.eqb (GetBlockTransactionsArgs.ID args) "") then
    (Return None, σ)
  else
    match ids_FromString (GetBlockTransactionsArgs.ID args) with
    | inl err => (Return (Some err), σ)
    | inr id =>
        match headers_at j id with
        | None => (Panic, σ)
        | Some block =>
            let res := TransactionResponse.mk (StatefulBlock.Txs block) id in
            let '(reply, σ) := alloc σ res in
            (Return None, σ)
        end
    end.

Definition getBlockTransactionsByNamespace `{External} (j : JSONRPCServer)
    (args : GetBlockTransactionsByNamespaceArgs.t)
    (reply : nat) (σ : store SEQTransactionResponse.t)
    : outcome * store SEQTransactionResponse.t :=
  if negb (String.eqb (GetBlockTransactionsByNamespaceArgs.ID args) "") then
    (Return None, σ)
  else
    match ids_FromString (GetBlockTransactionsByNamespaceArgs.ID args) with
    | inl err => (Return (Some err), σ)
    | inr id =>
        match blocksWithValidTxs j !! id with
        | None => (Panic, σ)
        | Some block =>
            let txs :=
              default [] (SequencerBlock.Txs block
                            !! GetBlockTransactionsByNamespaceArgs.Namespace args) in
            let res := SEQTransactionResponse.mk txs id in
            let '(reply, σ) := alloc σ res in
            (Return None, σ)
        end
    end.

(** ** Ingestion *)

(** One turn of the loop over [blk.Txs] (lines 446-463). [seq_txs[hx]] reads
    nil exactly when the key is absent: every stored slice is made by [make]
    or by [append]. *)
Definition seqStep (i : nat) (tx : Transaction.t) (result : Result.t)
    (seq_txs : gmap string (list SEQTransaction.t))
    : gmap string (list SEQTransaction.t) :=
  if Result.Success result then
    match Transaction.Action tx with
    | SequencerMsg ChainId Data =>
        let hx := hex.EncodeToString ChainId in
        let seq_txs :=
          match seq_txs !! hx with
          | None => <[hx := []]> seq_txs
          | Some _ => seq_txs
          end in
        let new_tx :=
          SEQTransaction.mk hx (Transaction.ID tx) Data (Z.of_nat i) in
        <[hx := default [] (seq_txs !! hx) ++ [new_tx]]> seq_txs
    | OtherAction _ => seq_txs
    end
  else seq_txs.

(** [for i, tx := range blk.Txs], from index [i] on; [results[i]] panics
    when [results] is shorter than the transaction list. *)
Fixpoint seqLoop (results : list Result.t) (i : nat) (txs : list Transaction.t)
    (seq_txs : gmap string (list SEQTransaction.t))
    : option (gmap string (list SEQTransaction.t)) :=
  match txs with
  | [] => Some seq_txs
  | tx :: txs' =>
      match results !! i with
      | None => None
      | Some result => seqLoop results (S i) txs' (seqStep i tx result seq_txs)
      end
  end.

(** [AcceptBlock]. The error of [rpc.UnpackBlockMessage] is bound and never
    read. [*id] is evaluated before the first assignment, so a nil [id]
    panics with the server untouched; a nil [block] is stored under [*id]
    and panics at [block.Hght]. *)
Definition AcceptBlock `{External} (j : JSONRPCServer) (blk : StatelessBlock.t)
    : outcome * JSONRPCServer :=
  match rpc_PackBlockMessage blk with
  | inl err => (Return (Some err), j)
  | inr msg =>
      let u := rpc_UnpackBlockMessage msg in
      match Unpacked.id u with
      | None => (Panic, j)
      | Some id =>
          let j :=
            mkServer (<[id := Unpacked.block u]> (headers j))
              (blocksWithValidTxs j) (idsByHeight j) (blocks j) in
          match Unpacked.block u with
          | None => (Panic, j)
          | Some block =>
              let j :=
                mkServer (headers j) (blocksWithValidTxs j)
                  (btree.Set_ (StatefulBlock.Hght block) id (idsByHeight j))
                  (blocks j) in
              let j :=
                mkServer (headers j) (blocksWithValidTxs j) (idsByHeight j)
                  (btree.Set_ (StatefulBlock.Tmstmp block)
                     (StatefulBlock.Hght block) (blocks j)) in
              match seqLoop (Unpacked.results u) 0 (StatelessBlock.Txs blk) ∅ with
              | None => (Panic, j)
              | Some seq_txs =>
                  let sequencerBlock :=
                    SequencerBlock.mk (StatelessBlock.StateRoot blk)
                      (StatelessBlock.Prnt blk) (StatelessBlock.Tmstmp blk)
                      (StatelessBlock.Hght blk) seq_txs in
                  (Return None,
                   mkServer (headers j)
                     (<[id := sequencerBlock]> (blocksWithValidTxs j))
                     (idsByHeight j) (blocks j))
              end
          end
      end
  end.

(** The states the server reaches: successful ingestions from the new
    server. *)
Inductive reachable `{External} : JSONRPCServer → Prop :=
| reachable_new : reachable NewJSONRPCServer
| reachable_accept j blk j' :
    reachable j → AcceptBlock j blk = (Return None, j') → reachable j'.

(** Ingests a list of blocks in order, stopping at the first call that does
    not return nil. *)
Fixpoint acceptAll `{External} (j : JSONRPCServer) (blks : list StatelessBlock.t)
    : outcome * JSONRPCServer :=
  match blks with
  | [] => (Return None, j)
  | blk :: rest =>
      match AcceptBlock j blk with
      | (Return None, j') => acceptAll j' rest
      | r => r
      end
  end.

(** ** Reading a response behind a pointer *)

(** The object a pointer designates, the zero object when it dangles. *)
Definition deref {A : Type} (zero : A) (σ : store A) (p : nat) : A :=
  default zero (σ !! p).

(** ** The window, as the specification words it *)

(** The index entries an ascending scan from [start] visits. *)
Definition visited (j : JSONRPCServer) (start : uint64) : list (Z * ids.ID) :=
  filter (λ e, start ≤ e.1) (idsByHeight j).

(** The timestamp of the entry's header exceeds the end bound. *)
Definition exceeds (j : JSONRPCServer) (End_ : int64) (e : Z * ids.ID) : bool :=
  match headers_at j e.2 with
  | Some blk => StatefulBlock.Tmstmp blk >? End_
  | None => false
  end.

(** The entry's header records the height it is indexed under. *)
Definition consistent (j : JSONRPCServer) (e : Z * ids.ID) : bool :=
  match headers_at j e.2 with
  | Some blk => StatefulBlock.Hght blk =? e.1
  | None => false
  end.

(** The maximal run of leading entries within the bound. *)
Fixpoint run (j : JSONRPCServer) (End_ : int64) (es : list (Z * ids.ID))
    : list (Z * ids.ID) :=
  match es with
  | [] => []
  | e :: es' => if exceeds j End_ e then [] else e :: run j End_ es'
  end.

(** The first entry beyond that run. *)
Fixpoint beyond (j : JSONRPCServer) (End_ : int64) (es : list (Z * ids.ID))
    : option (Z * ids.ID) :=
  match es with
  | [] => None
  | e :: es' => if exceeds j End_ e then Some e else beyond j End_ es'
  end.

Definition infos (es : list (Z * ids.ID)) : list BlockInfo.t :=
  (λ e, BlockInfo.mk e.2) <$> es.

Definition info_of (o : option (Z * ids.ID)) : BlockInfo.t :=
  match o with
  | Some e => BlockInfo.mk e.2
  | None => BlockInfo.zero
  end.

(** What the scan from [start] with bound [End_] collects: the run within
    the bound, then the first entry beyond it, each entry kept when its
    header records the height it is indexed under. *)
Definition window_blocks (j : JSONRPCServer) (start : uint64) (End_ : int64)
    : list BlockInfo.t :=
  infos (filter (λ e, consistent j e)
           (run j End_ (visited j start)
            ++ option_list (beyond j End_ (visited j start)))).

Definition window_next (j : JSONRPCServer) (start : uint64) (End_ : int64)
    : BlockInfo.t :=
  info_of (beyond j End_ (visited j start)).

Definition window_prev (j : JSONRPCServer) (start : uint64) : BlockInfo.t :=
  match btree.Get (uint64_sub start 1) (idsByHeight j) with
  | Some id => BlockInfo.mk id
  | None => BlockInfo.zero
  end.

(** Every identifier of the Height Index has a header in the store. *)
Definition headers_total (j : JSONRPCServer) : Prop :=
  ∀ h id, btree.Get h (idsByHeight j) = Some id → is_Some (headers_at j id).

(** ** The namespace partition, as the specification words it *)

(** The record a transaction at position [i] contributes, if it qualifies. *)
Definition qualifying (i : nat) (tx : Transaction.t) (result : Result.t)
    : option SEQTransaction.t :=
  if Result.Success result then
    match Transaction.Action tx with
    | SequencerMsg ChainId Data =>
        Some (SEQTransaction.mk (hex.EncodeToString ChainId)
                (Transaction.ID tx) Data (Z.of_nat i))
    | OtherAction _ => None
    end
  else None.

(** The qualifying records of a block from position [i] on, in block order. *)
Fixpoint qualified (i : nat) (txs : list Transaction.t) (results : list Result.t)
    : list SEQTransaction.t :=
  match txs, results with
  | tx :: txs', result :: results' =>
      match qualifying i tx result with
      | Some s => s :: qualified (S i) txs' results'
      | None => qualified (S i) txs' results'
      end
  | _, _ => []
  end.

(** The records of one namespace. *)
Definition partition_of (ns : string) (l : list SEQTransaction.t)
    : list SEQTransaction.t :=
  filter (λ s, SEQTransaction.Namespace s = ns) l.

(** What reading a key of the partition map gives for a list of records:
    no entry for the empty list. *)
Definition as_slice (l : list SEQTransaction.t) : option (list SEQTransaction.t) :=
  match l with
  | [] => None
  | _ :: _ => Some l
  end.

(** ** A codec and an identifier parser for examples

    [ids.FromString] reads a name off a table; the packed message is the
    block height as one byte, and unpacking reads the decoded block, results
    and identifier off a table of fixtures, failing with nil pointers (as
    hypersdk's decoder does) for a message it does not know. *)

Definition lookupName (names : list (string * ids.ID)) (s : string)
    : error + ids.ID :=
  match list_find (λ p, p.1 = s) names with
  | Some (_, (_, id)) => inr id
  | None => inl "invalid input checksum"%string
  end.

Definition packHeight (unpackable : list Z) (blk : StatelessBlock.t)
    : error + list byte :=
  if bool_decide (StatelessBlock.Hght blk ∈ unpackable)
  then inl "block is too large"%string
  else
    match Byte.of_N (Z.to_N (StatelessBlock.Hght blk mod 256)) with
    | Some b => inr [b]
    | None => inl "unreachable"%string
    end.

Definition unpackFixture (fixtures : list (Z * Unpacked.t)) (msg : list byte)
    : Unpacked.t :=
  match msg with
  | [b] =>
      match list_find (λ p, p.1 = Z.of_N (Byte.to_N b)) fixtures with
      | Some (_, (_, u)) => u
      | None => Unpacked.mk None [] None (Some "invalid object"%string)
      end
  | _ => Unpacked.mk None [] None (Some "invalid object"%string)
  end.

Definition exampleExternal (names : list (string * ids.ID))
    (unpackable : list Z) (fixtures : list (Z * Unpacked.t)) : External :=
  {| ids_FromString := lookupName names;
     rpc_PackBlockMessage := packHeight unpackable;
     rpc_UnpackBlockMessage := unpackFixture fixtures |}.

(** A block without transactions, and what the codec decodes it to. *)
Definition plainBlock (h : uint64) (t : int64) : StatefulBlock.t :=
  StatefulBlock.mk ids.Empty t h [] ids.Empty.

Definition decoded (b : StatefulBlock.t) (rs : list Result.t) (id : ids.ID)
    : Unpacked.t :=
  Unpacked.mk (Some b) rs (Some id) None.

(** Scenario A of the specification: heights 0, 1, 2 with timestamps 100,
    150, 220 and identifiers 10, 11, 12. *)
Definition scenarioA_ext : External :=
  exampleExternal [("h0", 10); ("h1", 11); ("h2", 12); ("h9", 19)]%string%N []
    [(0, decoded (plainBlock 0 100) [] 10%N);
     (1, decoded (plainBlock 1 150) [] 11%N);
     (2, decoded (plainBlock 2 220) [] 12%N)].

Definition scenarioA_blocks : list StatelessBlock.t :=
  [StatelessBlock.mk (plainBlock 0 100);
   StatelessBlock.mk (plainBlock 1 150);
   StatelessBlock.mk (plainBlock 2 220)].

Definition scenarioA : JSONRPCServer :=
  (@acceptAll scenarioA_ext NewJSONRPCServer scenarioA_blocks).2.

(** Scenario A before its last block. *)
Definition scenarioA_prefix : JSONRPCServer :=
  (@acceptAll scenarioA_ext NewJSONRPCServer (take 2 scenarioA_blocks)).2.


(** Scenario C of the specification: one block at height 3, identifier 30,
    with two successful sequencer messages on namespace [0x41], a failed one
    on the same namespace, a successful one on namespace [0x42], and a
    successful action of another kind. *)
Definition scenarioC_txs : list Transaction.t :=
  [Transaction.mk 101 (SequencerMsg ["A"%byte] [x01]);
   Transaction.mk 102 (SequencerMsg ["A"%byte] [x02]);
   Transaction.mk 103 (SequencerMsg ["B"%byte] [x03]);
   Transaction.mk 104 (SequencerMsg ["A"%byte] [x04]);
   Transaction.mk 105 (OtherAction 0)]%N.

Definition scenarioC_results : list Result.t :=
  [Result.mk true; Result.mk false; Result.mk true; Result.mk true;
   Result.mk true].

Definition scenarioC_block : StatefulBlock.t :=
  StatefulBlock.mk 29%N 300 3 scenarioC_txs 7%N.

Definition scenarioC_ext : External :=
  exampleExternal [("blkC", 30%N)]%string []
    [(3, decoded scenarioC_block scenarioC_results 30%N)].

Definition scenarioC : JSONRPCServer :=
  (@acceptAll scenarioC_ext NewJSONRPCServer
     [StatelessBlock.mk scenarioC_block]).2.

(** A block at the largest height a [uint64] holds, identifier 77. *)
Definition topBlock_ext : External :=
  exampleExternal [] [] [(255, decoded (plainBlock MaxUint64 500) [] 77%N)].

Definition topBlock : JSONRPCServer :=
  (@acceptAll topBlock_ext NewJSONRPCServer
     [StatelessBlock.mk (plainBlock MaxUint64 500)]).2.

(** A codec whose decoder fails: with nil pointers for the block at height
    4, and with the decoded block and identifier next to the error (bytes
    left over after the last field) for the block at height 5. No block at
    height 6 can be packed. *)
Definition failing_ext : External :=
  exampleExternal [] [6]
    [(5, Unpacked.mk (Some (plainBlock 5 500)) [] (Some 50%N)
           (Some "invalid object"%string))].

(** Two blocks that share the timestamp 100, at heights 0 and 1. *)
Definition twins_ext : External :=
  exampleExternal [] []
    [(0, decoded (plainBlock 0 100) [] 10%N);
     (1, decoded (plainBlock 1 100) [] 11%N)].

Definition twins_first : JSONRPCServer :=
  (@AcceptBlock twins_ext NewJSONRPCServer
     (StatelessBlock.mk (plainBlock 0 100))).2.

Definition twins_second : JSONRPCServer :=
  (@AcceptBlock twins_ext twins_first
     (StatelessBlock.mk (plainBlock 1 100))).2.

(** ** The controller and the state queries

    [Tx], [Asset], [Balance] and [Loan] ask the controller of the server
    ([j.c]) and write the answer through [reply]. The controller is an
    interface of the repository that is not among the sources, as are the
    address helpers of [utils] and the two not-found errors; they are
    injected. The tracing span plays no part in the result. *)

Definition PublicKey := list byte.

(** [chain.Dimensions]: an array of unit counts. *)
Definition Dimensions := list uint64.

Module TxLookup.
Record t : Type := mk {
  found : bool;
  timestamp : int64;
  success : bool;
  units : Dimensions;
  fee : uint64;
  err : option error
}.
End TxLookup.

Module AssetLookup.
Record t : Type := mk {
  exists_ : bool;
  symbol : list byte;
  decimals : Z;
  metadata : list byte;
  supply : uint64;
  owner : PublicKey;
  warp : bool;
  err : option error
}.
End AssetLookup.

Class Controller : Type := {
  GetTransaction : ids.ID → TxLookup.t;
  GetAssetFromState : ids.ID → AssetLookup.t;
  GetBalanceFromState : PublicKey → ids.ID → uint64 * option error;
  GetLoanFromState : ids.ID → ids.ID → uint64 * option error;
  utils_ParseAddress : string → error + PublicKey;
  utils_Address : PublicKey → string;
  ErrTxNotFound : error;
  ErrAssetNotFound : error
}.

Module TxArgs.
Record t : Type := mk { TxID : ids.ID }.
End TxArgs.

Module TxReply.
Record t : Type := mk {
  Timestamp : int64;
  Success : bool;
  Units : Dimensions;
  Fee : uint64
}.
Definition zero : t := mk 0 false [] 0.
End TxReply.

Module AssetArgs.
Record t : Type := mk { Asset : ids.ID }.
End AssetArgs.

Module AssetReply.
Record t : Type := mk {
  Symbol : list byte;
  Decimals : Z;
  Metadata : list byte;
  Supply : uint64;
  Owner : string;
  Warp : bool
}.
Definition zero : t := mk [] 0 [] 0 EmptyString false.
End AssetReply.

Module BalanceArgs.
Record t : Type := mk { Address : string; Asset : ids.ID }.
End BalanceArgs.

Module BalanceReply.
Record t : Type := mk { Amount : uint64 }.
Definition zero : t := mk 0.
End BalanceReply.

Module LoanArgs.
Record t : Type := mk { Destination : ids.ID; Asset : ids.ID }.
End LoanArgs.

Module LoanReply.
Record t : Type := mk { Amount : uint64 }.
Definition zero : t := mk 0.
End LoanReply.

(** [reply.f = v] for each field in turn: the object at [reply] is read,
    changed by [upd] and written back; a pointer to no object panics. *)
Definition assign {A : Type} (reply : nat) (upd : A → A) (σ : store A)
    : option (store A) :=
  match σ !! reply with
  | Some r => Some (<[reply := upd r]> σ)
  | None => None
  end.

Definition Tx `{Controller} (args : TxArgs.t) (reply : nat)
    (σ : store TxReply.t) : outcome * store TxReply.t :=
  let r := GetTransaction (TxArgs.TxID args) in
  match TxLookup.err r with
  | Some err => (Return (Some err), σ)
  | None =>
      if negb (TxLookup.found r) then (Return (Some ErrTxNotFound), σ)
      else
        let upd (o : TxReply.t) :=
          let o := TxReply.mk (TxLookup.timestamp r) (TxReply.Success o)
                     (TxReply.Units o) (TxReply.Fee o) in
          let o := TxReply.mk (TxReply.Timestamp o) (TxLookup.success r)
                     (TxReply.Units o) (TxReply.Fee o) in
          let o := TxReply.mk (TxReply.Timestamp o) (TxReply.Success o)
                     (TxLookup.units r) (TxReply.Fee o) in
          TxReply.mk (TxReply.Timestamp o) (TxReply.Success o)
            (TxReply.Units o) (TxLookup.fee r) in
        match assign reply upd σ with
        | Some σ => (Return None, σ)
        | None => (Panic, σ)
        end
  end.

Definition Asset `{Controller} (args : AssetArgs.t) (reply : nat)
    (σ : store AssetReply.t) : outcome * store AssetReply.t :=
  let r := GetAssetFromState (AssetArgs.Asset args) in
  match AssetLookup.err r with
  | Some err => (Return (Some err), σ)
  | None =>
      if negb (AssetLookup.exists_ r) then (Return (Some ErrAssetNotFound), σ)
      else
        let upd (_ : AssetReply.t) :=
          AssetReply.mk (AssetLookup.symbol r) (AssetLookup.decimals r)
            (AssetLookup.metadata r) (AssetLookup.supply r)
            (utils_Address (AssetLookup.owner r)) (AssetLookup.warp r) in
        match assign reply upd σ with
        | Some σ => (Return (AssetLookup.err r), σ)
        | None => (Panic, σ)
        end
  end.

Definition Balance `{Controller} (args : BalanceArgs.t) (reply : nat)
    (σ : store BalanceReply.t) : outcome * store BalanceReply.t :=
  match utils_ParseAddress (BalanceArgs.Address args) with
  | inl err => (Return (Some err), σ)
  | inr addr =>
      let '(balance, err) := GetBalanceFromState addr (BalanceArgs.Asset args) in
      match err with
      | Some err => (Return (Some err), σ)
      | None =>
          match assign reply (λ _, BalanceReply.mk balance) σ with
          | Some σ => (Return err, σ)
          | None => (Panic, σ)
          end
      end
  end.

Definition Loan `{Controller} (args : LoanArgs.t) (reply : nat)
    (σ : store LoanReply.t) : outcome * store LoanReply.t :=
  let '(amount, err) :=
    GetLoanFromState (LoanArgs.Asset args) (LoanArgs.Destination args) in
  match err with
  | Some err => (Return (Some err), σ)
  | None =>
      match assign reply (λ _, LoanReply.mk amount) σ with
      | Some σ => (Return None, σ)
      | None => (Panic, σ)
      end
  end.

(** A controller for examples: transaction 1 is known, asset 2 exists,
    the address [alice] holds 40 of asset 2, asset 9 cannot be read. *)
Definition exampleController : Controller :=
  {| GetTransaction id :=
       if (id =? 1)%N then TxLookup.mk true 100 true [1; 2; 3; 4; 5] 7 None
       else TxLookup.mk false 0 false [] 0 None;
     GetAssetFromState id :=
       if (id =? 2)%N
       then AssetLookup.mk true ["S"%byte] 9 [] 1000 ["a"%byte] false None
       else if (id =? 9)%N
       then AssetLookup.mk false [] 0 [] 0 [] false (Some "state closed"%string)
       else AssetLookup.mk false [] 0 [] 0 [] false None;
     GetBalanceFromState addr id :=
       if (id =? 9)%N then (0, Some "state closed"%string)
       else if (id =? 2)%N then (40, None) else (0, None);
     GetLoanFromState asset destination :=
       if (asset =? 9)%N then (0, Some "state closed"%string) else (5, None);
     utils_ParseAddress s :=
       if String.eqb s "alice" then inr ["a"%byte]
       else inl "invalid address"%string;
     utils_Address _ := "alice"%string;
     ErrTxNotFound := "tx not found"%string;
     ErrAssetNotFound := "asset not found"%string |}.

(** A codec that decodes the Scenario C block with two results for its five
    transactions. *)
Definition short_ext : External :=
  exampleExternal [] []
    [(3, decoded scenarioC_block [Result.mk true; Result.mk false] 30%N)].

(** A codec that decodes the block at height 0 under identifier 10, and for
    the block at height 8 fails with that identifier and a nil block. *)
Definition nilBlock_ext : External :=
  exampleExternal [] []
    [(0, decoded (plainBlock 0 100) [] 10%N);
     (8, Unpacked.mk None [] (Some 10%N) (Some "invalid object"%string))].

Definition nilBlock_first : JSONRPCServer :=
  (@AcceptBlock nilBlock_ext NewJSONRPCServer
     (StatelessBlock.mk (plainBlock 0 100))).2.

(** Two decoded blocks at height 0, identifiers 10 and 20; the codec of the
    examples tells messages apart by the height of the block that is passed,
    so the second one is passed with height 1. *)
Definition fork_ext : External :=
  exampleExternal [] []
    [(0, decoded (plainBlock 0 100) [] 10%N);
     (1, decoded (plainBlock 0 130) [] 20%N)].

Definition fork_first : JSONRPCServer :=
  (@AcceptBlock fork_ext NewJSONRPCServer
     (StatelessBlock.mk (plainBlock 0 100))).2.

Definition fork_second : JSONRPCServer :=
  (@AcceptBlock fork_ext fork_first
     (StatelessBlock.mk (plainBlock 1 130))).2.

(** ** Reading hexadecimal back

    The inverse of [hex.EncodeToString], used to tell namespaces apart: the
    position of a digit in [hex.hextable], and a string read two digits at a
    time. *)




(** * Properties *)

(** ** The ordered map *)

Section btree_facts.
Context {V : Type}.
Implicit Types (m : btree.Map V) (k : Z) (v : V).

Lemma Get_Set_eq k v m : btree.Get k (btree.Set_ k v m) = Some v.
Proof.
  induction m as [|[k' v'] m IH]; simpl.
  - by rewrite Z.eqb_refl.
  - destruct (k <? k') eqn:Hlt; simpl; [by rewrite Z.eqb_refl|].
    destruct (k =? k') eqn:Heq; simpl; [by rewrite Z.eqb_refl|].
    rewrite Z.eqb_sym in Heq. by rewrite Heq.
Qed.

Lemma Get_Set_ne k k' v m :
  k ≠ k' → btree.Get k' (btree.Set_ k v m) = btree.Get k' m.
Proof.
  intros Hne. induction m as [|[k0 v0] m IH]; simpl.
  - destruct (Z.eqb_spec k k'); [done|done].
  - destruct (k <? k0) eqn:Hlt; simpl.
    { destruct (Z.eqb_spec k k'); [done|done]. }
    destruct (Z.eqb_spec k k0) as [->|Hk]; simpl.
    { destruct (Z.eqb_spec k0 k'); [done|done]. }
    by rewrite IH.
Qed.

(** A second [Set_] of a key replaces what the first one wrote. *)
Lemma Set_Set k v1 v2 m :
  btree.Set_ k v2 (btree.Set_ k v1 m) = btree.Set_ k v2 m.
Proof.
  induction m as [|[k0 v0] m IH]; simpl.
  - by rewrite Z.ltb_irrefl, Z.eqb_refl.
  - destruct (k <? k0) eqn:Hlt; simpl.
    { by rewrite Z.ltb_irrefl, Z.eqb_refl. }
    destruct (k =? k0) eqn:Heq; simpl.
    { by rewrite Z.ltb_irrefl, Z.eqb_refl. }
    by rewrite Hlt, Heq, IH.
Qed.

Lemma Set_keys_bound k v m lo :
  lo < k → Forall (Z.lt lo) (btree.keys m) →
  Forall (Z.lt lo) (btree.keys (btree.Set_ k v m)).
Proof.
  intros Hlo. unfold btree.keys.
  induction m as [|[k0 v0] m IH]; simpl; intros Hall.
  - by constructor.
  - inversion Hall as [|? ? Hk0 Hrest]; subst.
    destruct (k <? k0); simpl; [by repeat constructor|].
    destruct (k =? k0); simpl; [by constructor|].
    constructor; [done|by apply IH].
Qed.

Lemma ascending_empty : btree.ascending (@btree.empty V).
Proof. constructor. Qed.

Lemma ascending_Set k v m :
  btree.ascending m → btree.ascending (btree.Set_ k v m).
Proof.
  unfold btree.ascending, btree.keys.
  induction m as [|[k0 v0] m IH]; simpl; intros Hs.
  - by repeat constructor.
  - inversion Hs as [|? ? Hm Hk0]; subst.
    destruct (Z.ltb_spec k k0); simpl.
    { constructor; [done|]. constructor; [lia|].
      eapply Forall_impl; [exact Hk0|]. simpl. lia. }
    destruct (Z.eqb_spec k k0) as [->|Hne]; simpl.
    { by constructor. }
    constructor; [by apply IH|].
    apply Set_keys_bound; [lia|done].
Qed.

Lemma Get_elem_of k v m :
  btree.ascending m → (k, v) ∈ m → btree.Get k m = Some v.
Proof.
  unfold btree.ascending, btree.keys.
  induction m as [|[k0 v0] m IH]; simpl; intros Hs Hin.
  - by apply elem_of_nil in Hin.
  - inversion Hs as [|? ? Hm Hk0]; subst.
    apply elem_of_cons in Hin as [Heq|Hin].
    + injection Heq as -> ->. by rewrite Z.eqb_refl.
    + destruct (Z.eqb_spec k0 k) as [->|Hne]; [|by apply IH].
      rewrite Forall_forall in Hk0.
      assert (k < k) by (apply Hk0; apply (list_elem_of_fmap_2 fst _ _ Hin)).
      lia.
Qed.

Lemma elem_of_Get k v m : btree.Get k m = Some v → (k, v) ∈ m.
Proof.
  induction m as [|[k0 v0] m IH]; simpl; [done|].
  destruct (Z.eqb_spec k0 k) as [->|Hne].
  - intros [= ->]. by left.
  - intros Hg. right. by apply IH.
Qed.

(** On an ascending map the scan from [pivot] visits exactly the entries
    with a key [>= pivot]. *)
Lemma seek_filter pivot m :
  btree.ascending m → btree.seek pivot m = filter (λ e, pivot ≤ e.1) m.
Proof.
  unfold btree.ascending, btree.keys.
  induction m as [|[k0 v0] m IH]; intros Hs; [done|].
  inversion Hs as [|? ? Hm Hk0]; subst.
  cbn [btree.seek]. destruct (Z.ltb_spec k0 pivot).
  - rewrite filter_cons_False by (simpl; lia). by apply IH.
  - rewrite filter_cons_True by (simpl; lia). f_equal.
    clear IH Hs Hm. induction m as [|[k1 v1] m IH]; [done|].
    inversion Hk0; subst.
    rewrite filter_cons_True by (simpl in *; lia). f_equal. by apply IH.
Qed.
End btree_facts.

(** ** Ingestion and the states it reaches *)

Section ingestion_facts.
Context `{External}.

(** What a call that returns nil has done. *)
Lemma AcceptBlock_ok_inv j blk j' :
  AcceptBlock j blk = (Return None, j') →
  ∃ msg block id seq_txs,
    rpc_PackBlockMessage blk = inr msg ∧
    Unpacked.block (rpc_UnpackBlockMessage msg) = Some block ∧
    Unpacked.id (rpc_UnpackBlockMessage msg) = Some id ∧
    seqLoop (Unpacked.results (rpc_UnpackBlockMessage msg)) 0
      (StatelessBlock.Txs blk) ∅ = Some seq_txs ∧
    j' = mkServer (<[id := Some block]> (headers j))
           (<[id := SequencerBlock.mk (StatelessBlock.StateRoot blk)
                      (StatelessBlock.Prnt blk) (StatelessBlock.Tmstmp blk)
                      (StatelessBlock.Hght blk) seq_txs]>
              (blocksWithValidTxs j))
           (btree.Set_ (StatefulBlock.Hght block) id (idsByHeight j))
           (btree.Set_ (StatefulBlock.Tmstmp block)
              (StatefulBlock.Hght block) (blocks j)).
Proof.
  unfold AcceptBlock.
  destruct (rpc_PackBlockMessage blk) as [e|msg]; [done|].
  destruct (Unpacked.id _) as [id|] eqn:Hid; [|done].
  destruct (Unpacked.block _) as [block|] eqn:Hb; [|done].
  simpl. destruct (seqLoop _ _ _ _) as [seq_txs|] eqn:Hl; [|done].
  intros [= <-]. by exists msg, block, id, seq_txs.
Qed.

Lemma headers_at_insert j id p id' bw ih bl :
  headers_at (mkServer (<[id := p]> (headers j)) bw ih bl) id'
  = if decide (id = id') then p else headers_at j id'.
Proof.
  unfold headers_at. simpl. rewrite lookup_insert. by case_decide.
Qed.

Lemma reachable_ascending j :
  reachable j → btree.ascending (idsByHeight j) ∧ btree.ascending (blocks j).
Proof.
  induction 1 as [|j blk j' _ [IH1 IH2] Hacc].
  - split; apply ascending_empty.
  - apply AcceptBlock_ok_inv in Hacc as (msg & block & id & seq & _ & _ & _ & _ & ->).
    simpl. split; by apply ascending_Set.
Qed.

Lemma reachable_headers_total j : reachable j → headers_total j.
Proof.
  induction 1 as [|j blk j' _ IH Hacc]; intros h id0.
  - done.
  - apply AcceptBlock_ok_inv in Hacc as (msg & block & id & seq & _ & _ & _ & _ & ->).
    rewrite headers_at_insert. simpl.
    destruct (decide (StatefulBlock.Hght block = h)) as [<-|Hne].
    + rewrite Get_Set_eq. intros [= <-]. by rewrite decide_True.
    + rewrite Get_Set_ne by done. intros Hg.
      case_decide; [done|]. by eapply IH.
Qed.

(** A run of [acceptAll] that returns nil ends in a reachable state. *)
Lemma acceptAll_reachable blks j j' :
  reachable j → acceptAll j blks = (Return None, j') → reachable j'.
Proof.
  revert j. induction blks as [|blk blks IH]; simpl; intros j Hj.
  - by intros [= <-].
  - destruct (AcceptBlock j blk) as [[[e|]|] j1] eqn:Hacc; try done.
    apply IH. by eapply reachable_accept.
Qed.

End ingestion_facts.

(** ** The windowed scan *)

Section scan_facts.
Implicit Types (j : JSONRPCServer) (es : list (Z * ids.ID)).

Lemma consistent_eq j k id blk :
  headers_at j id = Some blk →
  consistent j (k, id) = (StatefulBlock.Hght blk =? k).
Proof. intros Hblk. unfold consistent. simpl. by rewrite Hblk. Qed.

(** The iterator, run over entries that all have a header, collects the run
    within the bound and then the first entry beyond it, and stops there. *)
Lemma iterate_scanIter j End_ es acc nx :
  Forall (λ e, is_Some (headers_at j e.2)) es →
  btree.iterate (scanIter j End_) es (acc, nx)
  = Some (acc ++ infos (filter (λ e, consistent j e)
                          (run j End_ es ++ option_list (beyond j End_ es))),
          match beyond j End_ es with
          | Some e => BlockInfo.mk e.2
          | None => nx
          end).
Proof.
  intros Hall. revert acc nx.
  induction Hall as [|[k id] es [blk Hblk] _ IH]; intros acc nx.
  - simpl. by rewrite app_nil_r.
  - cbn [btree.iterate run beyond]. unfold scanIter, exceeds.
    cbn [fst snd] in *. rewrite Hblk.
    destruct (StatefulBlock.Tmstmp blk >? End_) eqn:Hts.
    + unfold infos, option_list. cbn [option_rect app snd].
      rewrite filter_cons, filter_nil, (consistent_eq _ _ _ _ Hblk).
      destruct (StatefulBlock.Hght blk =? k); simpl; [done|].
      by rewrite app_nil_r.
    + rewrite IH. f_equal. f_equal.
      unfold infos. cbn [app].
      rewrite filter_cons, (consistent_eq _ _ _ _ Hblk).
      destruct (StatefulBlock.Hght blk =? k); simpl; [|done].
      by rewrite <- app_assoc.
Qed.

(** On an ascending index whose identifiers all have a header, the shared
    tail of the three queries returns nil and builds the window. *)
Lemma headersFrom_window j start End_ reply σ :
  btree.ascending (idsByHeight j) → headers_total j →
  headersFrom j start End_ reply σ
  = (Return None,
     σ ++ [BlockHeadersResponse.mk start (window_blocks j start End_)
             (window_prev j start) (window_next j start End_)]).
Proof.
  intros Hasc Htot. unfold headersFrom, btree.Ascend.
  rewrite seek_filter by done. fold (visited j start).
  rewrite iterate_scanIter.
  - unfold alloc, window_blocks, window_next, window_prev, info_of. simpl.
    by destruct (beyond j End_ (visited j start)).
  - apply Forall_forall. intros [k id] Hin. simpl.
    apply list_elem_of_filter in Hin as [_ Hin].
    apply (Htot k). by apply Get_elem_of.
Qed.

(** The caller's object is never written by the shared tail. *)
Lemma headersFrom_reply_untouched j start End_ reply σ :
  (reply < length σ)%nat →
  (headersFrom j start End_ reply σ).2 !! reply = σ !! reply.
Proof.
  intros Hlt. unfold headersFrom.
  destruct (btree.Ascend _ _ _ _) as [[bs nx]|]; simpl; [|done].
  by rewrite lookup_app_l.
Qed.

End scan_facts.

(** ** The namespace partition *)

Section partition_facts.
Implicit Types (m : gmap string (list SEQTransaction.t)) (ns : string).

Lemma as_slice_snoc l s : as_slice (l ++ [s]) = Some (l ++ [s]).
Proof. by destruct l. Qed.

Lemma default_as_slice l : default [] (as_slice l) = l.
Proof. by destruct l. Qed.

Lemma partition_of_qualifying ns i tx r s :
  qualifying i tx r = Some s →
  partition_of ns [s] = if decide (SEQTransaction.Namespace s = ns) then [s] else [].
Proof. intros _. unfold partition_of. by rewrite filter_cons, filter_nil. Qed.

(** One turn of the loop appends the record of the transaction, if it
    qualifies, to the list of its namespace and touches no other list. *)
Lemma seqStep_lookup i tx r m L ns :
  m !! ns = as_slice (partition_of ns L) →
  seqStep i tx r m !! ns
  = as_slice (partition_of ns (L ++ option_list (qualifying i tx r))).
Proof.
  intros Hm. unfold partition_of in *. rewrite filter_app.
  unfold seqStep, qualifying.
  destruct (Result.Success r); [|by rewrite app_nil_r].
  destruct (Transaction.Action tx) as [c d|]; [|by rewrite app_nil_r].
  unfold option_list. cbn [option_rect].
  rewrite filter_cons, filter_nil. cbn [SEQTransaction.Namespace].
  destruct (decide (hex.EncodeToString c = ns)) as [<-|Hne].
  - rewrite lookup_insert_eq, as_slice_snoc. f_equal. f_equal.
    destruct (m !! hex.EncodeToString c) as [l|] eqn:Hl.
    + rewrite Hl, Hm. apply default_as_slice.
    + rewrite lookup_insert_eq. simpl.
      symmetry in Hm. by destruct (filter _ L).
  - rewrite app_nil_r, lookup_insert_ne by done.
    destruct (m !! hex.EncodeToString c); [done|]. by rewrite lookup_insert_ne.
Qed.

(** The loop ends when there is a result for every transaction, and leaves
    under each namespace the qualifying records of that namespace. *)
Lemma seqLoop_partition results txs i m L :
  (length txs + i ≤ length results)%nat →
  (∀ ns, m !! ns = as_slice (partition_of ns L)) →
  ∃ m', seqLoop results i txs m = Some m' ∧
    ∀ ns, m' !! ns
          = as_slice (partition_of ns (L ++ qualified i txs (drop i results))).
Proof.
  revert i m L. induction txs as [|tx txs IH]; intros i m L Hlen Hm.
  - exists m. split; [done|]. intros ns. simpl. by rewrite app_nil_r.
  - simpl in Hlen.
    destruct (lookup_lt_is_Some_2 results i) as [r Hr]; [lia|].
    cbn [seqLoop]. rewrite Hr.
    destruct (IH (S i) (seqStep i tx r m) (L ++ option_list (qualifying i tx r)))
      as (m' & Hloop & Hm'); [lia| |].
    { intros ns. by apply seqStep_lookup. }
    exists m'. split; [done|]. intros ns. rewrite Hm'. f_equal. f_equal.
    rewrite <- app_assoc. f_equal.
    rewrite (drop_S _ _ _ Hr). cbn [qualified].
    by destruct (qualifying i tx r).
Qed.

(** The records of [qualified] are those of the positions that qualify. *)
Lemma elem_of_qualified s txs results i :
  s ∈ qualified i txs results ↔
  ∃ n tx r, txs !! n = Some tx ∧ results !! n = Some r ∧
            qualifying (i + n) tx r = Some s.
Proof.
  revert results i. induction txs as [|tx txs IH]; intros results i.
  - simpl. split; [by intros ?%elem_of_nil|]. by intros (n & ? & ? & ? & _).
  - destruct results as [|r results].
    { simpl. split; [by intros ?%elem_of_nil|]. by intros (n & ? & ? & _ & ? & _). }
    cbn [qualified].
    assert (s ∈ qualified (S i) txs results ↔
            ∃ n tx0 r0, (tx :: txs) !! S n = Some tx0 ∧
              (r :: results) !! S n = Some r0 ∧
              qualifying (i + S n) tx0 r0 = Some s) as Htail.
    { rewrite IH. split; intros (n & tx0 & r0 & ? & ? & Hq);
        exists n, tx0, r0; (split; [done|]; split; [done|]).
      - by replace (i + S n)%nat with (S i + n)%nat by lia.
      - by replace (S i + n)%nat with (i + S n)%nat by lia. }
    destruct (qualifying i tx r) as [s0|] eqn:Hq0.
    + rewrite elem_of_cons, Htail. split.
      * intros [->|(n & tx0 & r0 & ?)].
        -- exists 0%nat, tx, r. by rewrite Nat.add_0_r.
        -- by exists (S n), tx0, r0.
      * intros ([|n] & tx0 & r0 & Htx & Hr & Hq).
        -- simpl in Htx, Hr. injection Htx as <-. injection Hr as <-.
           rewrite Nat.add_0_r, Hq0 in Hq. left. by injection Hq.
        -- right. by exists n, tx0, r0.
    + rewrite Htail. split.
      * intros (n & tx0 & r0 & ?). by exists (S n), tx0, r0.
      * intros ([|n] & tx0 & r0 & Htx & Hr & Hq).
        -- simpl in Htx, Hr. injection Htx as <-. injection Hr as <-.
           by rewrite Nat.add_0_r, Hq0 in Hq.
        -- by exists n, tx0, r0.
Qed.

Lemma qualifying_Index i tx r s :
  qualifying i tx r = Some s → SEQTransaction.Index s = Z.of_nat i.
Proof.
  unfold qualifying. destruct (Result.Success r); [|done].
  destruct (Transaction.Action tx); [|done]. by intros [= <-].
Qed.

(** The records of [qualified] are in block order: their positions ascend. *)
Lemma qualified_ascending i txs results :
  StronglySorted (λ a b, SEQTransaction.Index a < SEQTransaction.Index b)
    (qualified i txs results).
Proof.
  revert i results. induction txs as [|tx txs IH]; intros i results.
  - constructor.
  - destruct results as [|r results]; [constructor|].
    cbn [qualified]. destruct (qualifying i tx r) as [s|] eqn:Hq; [|apply IH].
    constructor; [apply IH|].
    apply Forall_forall. intros s' Hin.
    apply elem_of_qualified in Hin as (n & tx' & r' & _ & _ & Hq').
    apply qualifying_Index in Hq, Hq'. lia.
Qed.

Lemma partition_of_ascending ns l :
  StronglySorted (λ a b, SEQTransaction.Index a < SEQTransaction.Index b) l →
  StronglySorted (λ a b, SEQTransaction.Index a < SEQTransaction.Index b)
    (partition_of ns l).
Proof.
  unfold partition_of. induction 1 as [|s l Hl IH Hs]; [constructor|].
  rewrite filter_cons. case_decide; [|done].
  constructor; [done|].
  apply Forall_forall. intros s' [_ Hin]%list_elem_of_filter.
  rewrite Forall_forall in Hs. by apply Hs.
Qed.

End partition_facts.

(** ** The block-header queries *)

Lemma scenarioA_reachable : @reachable scenarioA_ext scenarioA.
Proof.
  apply (@acceptAll_reachable scenarioA_ext scenarioA_blocks NewJSONRPCServer).
  - constructor.
  - by vm_compute.
Qed.

(** C1 (the code departs from it). The iterator appends a block to [Blocks]
    before it compares the timestamp with the end bound. So in every state
    the server reaches, each of the three block-header queries (by height, by
    identifier of a stored block, by start timestamp) returns nil and builds
    a response whose [Blocks] are, in ascending order of indexed height from
    the start height on, the entries whose timestamps are within the end
    bound followed by the first entry whose timestamp exceeds it, each entry
    listed when its header records the height it is indexed under; that
    first entry beyond the bound also populates [Next] (the zero marker when
    there is none), and nothing after it is visited. The claim has that
    entry in [Next] only. *)
Theorem window_lists_bounding_block `{External} j reply σ :
  reachable j →
  (∀ args, ∃ res,
      getBlockHeadersByHeight j args reply σ = (Return None, σ ++ [res]) ∧
      BlockHeadersResponse.Blocks res
      = window_blocks j (GetBlockHeadersByHeightArgs.Height args)
          (GetBlockHeadersByHeightArgs.End_ args) ∧
      BlockHeadersResponse.Next res
      = window_next j (GetBlockHeadersByHeightArgs.Height args)
          (GetBlockHeadersByHeightArgs.End_ args)) ∧
  (∀ args id block,
      GetBlockHeadersIDArgs.ID args ≠ ""%string →
      ids_FromString (GetBlockHeadersIDArgs.ID args) = inr id →
      headers_at j id = Some block →
      ∃ res,
        getBlockHeadersID j args reply σ = (Return None, σ ++ [res]) ∧
        BlockHeadersResponse.Blocks res
        = window_blocks j (StatefulBlock.Hght block)
            (GetBlockHeadersIDArgs.End_ args) ∧
        BlockHeadersResponse.Next res
        = window_next j (StatefulBlock.Hght block)
            (GetBlockHeadersIDArgs.End_ args)) ∧
  (∀ args, ∃ res,
      getBlockHeadersByStart j args reply σ = (Return None, σ ++ [res]) ∧
      BlockHeadersResponse.Blocks res
      = window_blocks j
          (default 0 (btree.Get (GetBlockHeadersByStartArgs.Start args) (blocks j)))
          (GetBlockHeadersByStartArgs.End_ args) ∧
      BlockHeadersResponse.Next res
      = window_next j
          (default 0 (btree.Get (GetBlockHeadersByStartArgs.Start args) (blocks j)))
          (GetBlockHeadersByStartArgs.End_ args)).
Proof.
  intros Hj.
  pose proof (reachable_ascending j Hj) as [Hasc _].
  pose proof (reachable_headers_total j Hj) as Htot.
  split; [|split].
  - intros args. eexists. unfold getBlockHeadersByHeight.
    rewrite headersFrom_window by done. by split.
  - intros args id block Hne Hid Hblk. eexists. unfold getBlockHeadersID.
    destruct (String.eqb_spec (GetBlockHeadersIDArgs.ID args) ""); [done|].
    simpl. rewrite Hid, Hblk, headersFrom_window by done. by split.
  - intros args. unfold getBlockHeadersByStart.
    rewrite headersFrom_window by done.
    eexists. split; [reflexivity|]. simpl.
    by destruct (btree.Get _ (blocks j)).
Qed.

(** At the failing input of C1, Scenario A (heights 0, 1, 2 with timestamps
    100, 150, 220 and identifiers 10, 11, 12; query from height 0 with end
    bound 180): the block at height 2 is listed after the two blocks within
    the bound, and is [Next] as well. *)
Lemma window_lists_bounding_block_witness :
  ∃ res,
    getBlockHeadersByHeight scenarioA (GetBlockHeadersByHeightArgs.mk 0 180)
      0%nat [BlockHeadersResponse.zero]
    = (Return None, [BlockHeadersResponse.zero] ++ [res]) ∧
    BlockHeadersResponse.Blocks res
    = [BlockInfo.mk 10%N; BlockInfo.mk 11%N; BlockInfo.mk 12%N] ∧
    BlockHeadersResponse.Next res = BlockInfo.mk 12%N.
Proof.
  exact (proj1 (@window_lists_bounding_block scenarioA_ext scenarioA 0%nat
                  [BlockHeadersResponse.zero] scenarioA_reachable)
           (GetBlockHeadersByHeightArgs.mk 0 180)).
Defined.

(** Scenario A once more, against the run the specification expects: the
    block at height 2, the first one beyond the bound, is listed in [Blocks],
    which therefore is not the run of blocks within the bound. *)
Lemma scenarioA_bounding_block_listed :
  ∃ res,
    getBlockHeadersByHeight scenarioA (GetBlockHeadersByHeightArgs.mk 0 180)
      0%nat [BlockHeadersResponse.zero]
    = (Return None, [BlockHeadersResponse.zero; res]) ∧
    BlockHeadersResponse.Blocks res
    = [BlockInfo.mk 10%N; BlockInfo.mk 11%N; BlockInfo.mk 12%N] ∧
    BlockHeadersResponse.Next res = BlockInfo.mk 12%N ∧
    infos (run scenarioA 180 (visited scenarioA 0))
    = [BlockInfo.mk 10%N; BlockInfo.mk 11%N] ∧
    BlockHeadersResponse.Blocks res
    ≠ infos (run scenarioA 180 (visited scenarioA 0)).
Proof.
  eexists. split; [by vm_compute|]. by vm_compute.
Qed.

(** C2 (the code departs from it). Whatever the by-height query computes, the
    response object the caller passed is the same after the call as before:
    the result is stored in a new object, whose address is assigned to the
    local [reply] only. *)
Theorem by_height_reply_untouched j args reply σ :
  (reply < length σ)%nat →
  (getBlockHeadersByHeight j args reply σ).2 !! reply = σ !! reply.
Proof. apply headersFrom_reply_untouched. Qed.

(** At the failing input of C2: Scenario A, query from height 1 with end
    bound 180 into a zero response object. The call returns nil; the object
    of the caller still reads [From = 0] with no blocks, while the response
    that was built says [From = 1] and lists two blocks. *)
Lemma by_height_reply_untouched_witness :
  let r := getBlockHeadersByHeight scenarioA
             (GetBlockHeadersByHeightArgs.mk 1 180) 0%nat
             [BlockHeadersResponse.zero] in
  ((0 < length [BlockHeadersResponse.zero])%nat ∧
   r.2 !! 0%nat = [BlockHeadersResponse.zero] !! 0%nat) ∧
  r.1 = Return None ∧
  deref BlockHeadersResponse.zero r.2 0 = BlockHeadersResponse.zero ∧
  deref BlockHeadersResponse.zero r.2 1
  = BlockHeadersResponse.mk 1 [BlockInfo.mk 11%N; BlockInfo.mk 12%N]
      (BlockInfo.mk 10%N) (BlockInfo.mk 12%N).
Proof.
  split; [|by vm_compute].
  split; [simpl; lia|].
  apply (by_height_reply_untouched scenarioA
           (GetBlockHeadersByHeightArgs.mk 1 180) 0%nat
           [BlockHeadersResponse.zero]).
  simpl; lia.
Defined.

(** The previous page of the by-height query, for a start height that is not
    zero: the identifier indexed at the height before it, if any. *)
Lemma by_height_prev_positive `{External} j args reply σ :
  reachable j →
  0 < GetBlockHeadersByHeightArgs.Height args < 2 ^ 64 →
  ∃ res,
    getBlockHeadersByHeight j args reply σ = (Return None, σ ++ [res]) ∧
    BlockHeadersResponse.Prev res
    = match btree.Get (GetBlockHeadersByHeightArgs.Height args - 1)
              (idsByHeight j) with
      | Some id => BlockInfo.mk id
      | None => BlockInfo.zero
      end.
Proof.
  intros Hj Hh.
  pose proof (reachable_ascending j Hj) as [Hasc _].
  pose proof (reachable_headers_total j Hj) as Htot.
  unfold getBlockHeadersByHeight. rewrite headersFrom_window by done.
  eexists. split; [reflexivity|]. simpl. unfold window_prev, uint64_sub.
  by rewrite Z.mod_small by lia.
Qed.

(** C7 (the code departs from it). For a start height of zero the by-height
    query looks [Prev] up at [0 - 1] computed in [uint64], which is the
    largest height: when the index has a block there, it is reported as the
    previous page of height zero. *)
Theorem by_height_prev_wraps_at_zero `{External} j End_ reply σ id :
  reachable j →
  btree.Get MaxUint64 (idsByHeight j) = Some id →
  ∃ res,
    getBlockHeadersByHeight j (GetBlockHeadersByHeightArgs.mk 0 End_) reply σ
    = (Return None, σ ++ [res]) ∧
    BlockHeadersResponse.Prev res = BlockInfo.mk id.
Proof.
  intros Hj Hid.
  pose proof (reachable_ascending j Hj) as [Hasc _].
  pose proof (reachable_headers_total j Hj) as Htot.
  unfold getBlockHeadersByHeight. rewrite headersFrom_window by done.
  eexists. split; [reflexivity|]. simpl. unfold window_prev.
  change (uint64_sub 0 1) with MaxUint64. by rewrite Hid.
Qed.

Lemma topBlock_reachable : @reachable topBlock_ext topBlock.
Proof.
  apply (@acceptAll_reachable topBlock_ext
           [StatelessBlock.mk (plainBlock MaxUint64 500)] NewJSONRPCServer).
  - constructor.
  - by vm_compute.
Qed.

(** At the failing input of C7: after the ingestion of one block at height
    [2^64 - 1] with identifier 77, the query from height 0 answers
    [Prev = 77], where the claim has the empty marker. *)
Lemma by_height_prev_wraps_at_zero_witness :
  ∃ res,
    getBlockHeadersByHeight topBlock (GetBlockHeadersByHeightArgs.mk 0 0)
      0%nat [BlockHeadersResponse.zero]
    = (Return None, [BlockHeadersResponse.zero] ++ [res]) ∧
    BlockHeadersResponse.Prev res = BlockInfo.mk 77%N.
Proof.
  apply (@by_height_prev_wraps_at_zero topBlock_ext topBlock 0 0%nat
           [BlockHeadersResponse.zero] 77%N topBlock_reachable).
  by vm_compute.
Defined.

(** The start height of the by-start-timestamp query. *)
Lemma by_start_window `{External} j args reply σ :
  reachable j →
  getBlockHeadersByStart j args reply σ
  = (Return None,
     σ ++ [let start :=
             match btree.Get (GetBlockHeadersByStartArgs.Start args)
                     (blocks j) with
             | Some height => height
             | None => 0
             end in
           BlockHeadersResponse.mk start
             (window_blocks j start (GetBlockHeadersByStartArgs.End_ args))
             (window_prev j start)
             (window_next j start (GetBlockHeadersByStartArgs.End_ args))]).
Proof.
  intros Hj.
  pose proof (reachable_ascending j Hj) as [Hasc _].
  pose proof (reachable_headers_total j Hj) as Htot.
  unfold getBlockHeadersByStart. by rewrite headersFrom_window.
Qed.

Lemma Get_absent {V : Type} k (m : list (Z * V)) :
  k ∉ btree.keys m → btree.Get k m = None.
Proof.
  intros Hk. destruct (btree.Get k m) as [v|] eqn:Hg; [|done].
  apply elem_of_Get in Hg. destruct Hk.
  apply (list_elem_of_fmap_2 fst _ _ Hg).
Qed.

(** C8. In every state the server reaches, the by-start-timestamp query
    returns nil, never an error, and the scan of the response it builds
    starts at the height that the Time Index holds in its entry for exactly
    the requested timestamp, or at height zero when the Time Index has no
    entry with that timestamp; its blocks and next page are those of the
    window scanned from that height. *)
Theorem by_start_exact_match_or_genesis `{External} j args reply σ :
  reachable j →
  ∃ res,
    getBlockHeadersByStart j args reply σ = (Return None, σ ++ [res]) ∧
    (∀ height,
       (GetBlockHeadersByStartArgs.Start args, height) ∈ blocks j →
       BlockHeadersResponse.From res = height) ∧
    (GetBlockHeadersByStartArgs.Start args ∉ btree.keys (blocks j) →
     BlockHeadersResponse.From res = 0) ∧
    BlockHeadersResponse.Blocks res
    = window_blocks j (BlockHeadersResponse.From res)
        (GetBlockHeadersByStartArgs.End_ args) ∧
    BlockHeadersResponse.Next res
    = window_next j (BlockHeadersResponse.From res)
        (GetBlockHeadersByStartArgs.End_ args).
Proof.
  intros Hj. rewrite by_start_window by done.
  pose proof (reachable_ascending j Hj) as [_ Hasc].
  eexists. split; [reflexivity|]. simpl. split; [|split; [|done]].
  - intros height Hin. by rewrite (Get_elem_of _ _ _ Hasc Hin).
  - intros Hout. by rewrite Get_absent.
Qed.

(** On Scenario A, whose Time Index is 100 -> 0, 150 -> 1, 220 -> 2: the
    start timestamp 150 of the block at height 1 starts the scan at height 1,
    and with the end bound 180 the response lists the blocks 11 and 12. *)
Lemma by_start_exact_match_or_genesis_witness :
  blocks scenarioA = [(100, 0); (150, 1); (220, 2)] ∧
  ∃ res,
    getBlockHeadersByStart scenarioA (GetBlockHeadersByStartArgs.mk 150 180)
      0%nat [BlockHeadersResponse.zero]
    = (Return None, [BlockHeadersResponse.zero] ++ [res]) ∧
    BlockHeadersResponse.From res = 1 ∧
    BlockHeadersResponse.Blocks res = [BlockInfo.mk 11%N; BlockInfo.mk 12%N] ∧
    BlockHeadersResponse.Next res = BlockInfo.mk 12%N.
Proof.
  split; [by vm_compute|].
  destruct (@by_start_exact_match_or_genesis scenarioA_ext scenarioA
              (GetBlockHeadersByStartArgs.mk 150 180) 0%nat
              [BlockHeadersResponse.zero] scenarioA_reachable)
    as (res & Hres & Hmatch & _ & Hblocks & Hnext).
  assert (BlockHeadersResponse.From res = 1) as Hfrom.
  { apply Hmatch.
    change ((150, 1) ∈ [(100, 0); (150, 1); (220, 2)]).
    right. left. }
  exists res. split; [exact Hres|]. split; [exact Hfrom|].
  rewrite Hblocks, Hnext, Hfrom. by vm_compute.
Defined.

(** On Scenario A, a start timestamp that no block has (120): the scan
    starts at height 0 and runs over the whole index up to the bound. *)
Example by_start_scenarioA_no_match :
  (getBlockHeadersByStart scenarioA (GetBlockHeadersByStartArgs.mk 120 180)
     0%nat []).2
  = [BlockHeadersResponse.mk 0
       [BlockInfo.mk 10%N; BlockInfo.mk 11%N; BlockInfo.mk 12%N]
       BlockInfo.zero (BlockInfo.mk 12%N)].
Proof. by vm_compute. Qed.

(** On Scenario A, the start timestamp of the block at height 1 (150). *)
Example by_start_scenarioA_match :
  (getBlockHeadersByStart scenarioA (GetBlockHeadersByStartArgs.mk 150 180)
     0%nat []).2
  = [BlockHeadersResponse.mk 1 [BlockInfo.mk 11%N; BlockInfo.mk 12%N]
       (BlockInfo.mk 10%N) (BlockInfo.mk 12%N)].
Proof. by vm_compute. Qed.

(** The half of C4 the code keeps: an empty identifier returns nil at once
    and leaves the store of responses as it was. *)
Lemma by_id_empty_identifier `{External} j args reply σ :
  GetBlockHeadersIDArgs.ID args = ""%string →
  getBlockHeadersID j args reply σ = (Return None, σ).
Proof. intros Hid. unfold getBlockHeadersID. by rewrite Hid. Qed.

(** C4 (the code departs from it). A well-formed identifier that the Block
    Header Store does not hold makes the by-identifier query panic: the
    header read from the store is nil, and its height is read through it. *)
Theorem by_id_absent_identifier_panics `{External} j args reply σ id :
  GetBlockHeadersIDArgs.ID args ≠ ""%string →
  ids_FromString (GetBlockHeadersIDArgs.ID args) = inr id →
  headers_at j id = None →
  getBlockHeadersID j args reply σ = (Panic, σ).
Proof.
  intros Hne Hid Hnone. unfold getBlockHeadersID.
  destruct (String.eqb_spec (GetBlockHeadersIDArgs.ID args) ""); [done|].
  simpl. by rewrite Hid, Hnone.
Qed.

(** At the failing input of C4: on Scenario A, the identifier named [h9]
    parses to 19, which no ingested block has. *)
Lemma by_id_absent_identifier_panics_witness :
  @getBlockHeadersID scenarioA_ext scenarioA
    (GetBlockHeadersIDArgs.mk "h9" 180) 0%nat [BlockHeadersResponse.zero]
  = (Panic, [BlockHeadersResponse.zero]).
Proof.
  apply (@by_id_absent_identifier_panics scenarioA_ext scenarioA
           (GetBlockHeadersIDArgs.mk "h9" 180) 0%nat
           [BlockHeadersResponse.zero] 19%N).
  - by vm_compute.
  - by vm_compute.
  - by vm_compute.
Defined.

(** ** The transaction queries *)

(** C3 (the code departs from it). Both transaction queries return nil at
    once, without reading any store and without writing a response,
    whenever the identifier argument is not empty: the guard is the negation of
    the one the by-identifier block-header query has. *)
Theorem transaction_queries_skip_named_blocks `{External} j reply σt σs :
  (∀ args, GetBlockTransactionsArgs.ID args ≠ ""%string →
           getBlockTransactions j args reply σt = (Return None, σt)) ∧
  (∀ args, GetBlockTransactionsByNamespaceArgs.ID args ≠ ""%string →
           getBlockTransactionsByNamespace j args reply σs = (Return None, σs)).
Proof.
  split; intros args Hne.
  - unfold getBlockTransactions.
    by destruct (String.eqb_spec (GetBlockTransactionsArgs.ID args) "").
  - unfold getBlockTransactionsByNamespace.
    by destruct (String.eqb_spec (GetBlockTransactionsByNamespaceArgs.ID args) "").
Qed.

(** At the failing input of C3: on Scenario C the block named [blkC] is
    stored with five transactions and two namespaces; both queries for it
    return nil and leave the zero response, with no transaction and the zero
    identifier. *)
Lemma transaction_queries_skip_named_blocks_witness :
  (ids_FromString (External := scenarioC_ext) "blkC" = inr 30%N ∧
   StatefulBlock.Txs <$> headers_at scenarioC 30%N = Some scenarioC_txs) ∧
  @getBlockTransactions scenarioC_ext scenarioC
    (GetBlockTransactionsArgs.mk "blkC") 0%nat [TransactionResponse.zero]
  = (Return None, [TransactionResponse.zero]) ∧
  @getBlockTransactionsByNamespace scenarioC_ext scenarioC
    (GetBlockTransactionsByNamespaceArgs.mk "blkC" "41") 0%nat
    [SEQTransactionResponse.zero]
  = (Return None, [SEQTransactionResponse.zero]).
Proof.
  split; [by vm_compute|].
  destruct (@transaction_queries_skip_named_blocks scenarioC_ext scenarioC
              0%nat [TransactionResponse.zero] [SEQTransactionResponse.zero])
    as [Htx Hns].
  split.
  - by apply Htx.
  - by apply Hns.
Defined.

(** ** Ingestion *)

(** The half of C5 the code keeps: the error of the packing step is returned
    and the server is left as it was. *)
Lemma AcceptBlock_pack_error `{External} j blk e :
  rpc_PackBlockMessage blk = inl e →
  AcceptBlock j blk = (Return (Some e), j).
Proof. intros Hp. unfold AcceptBlock. by rewrite Hp. Qed.

(** C5 (the code departs from it). When the packing step succeeds and the
    unpacking step reports an error, [AcceptBlock] returns no error at all:
    with a nil identifier it panics and leaves the server as it was, and with
    a decoded block and identifier next to the error (and a result for every
    transaction) it returns nil with the block in all four structures. *)
Theorem unpack_error_not_surfaced `{External} j blk msg e :
  rpc_PackBlockMessage blk = inr msg →
  Unpacked.err (rpc_UnpackBlockMessage msg) = Some e →
  (∀ e', (AcceptBlock j blk).1 ≠ Return (Some e')) ∧
  (Unpacked.id (rpc_UnpackBlockMessage msg) = None →
   AcceptBlock j blk = (Panic, j)) ∧
  (∀ id block,
     Unpacked.id (rpc_UnpackBlockMessage msg) = Some id →
     Unpacked.block (rpc_UnpackBlockMessage msg) = Some block →
     (length (StatelessBlock.Txs blk)
      ≤ length (Unpacked.results (rpc_UnpackBlockMessage msg)))%nat →
     ∃ j', AcceptBlock j blk = (Return None, j') ∧
       headers_at j' id = Some block ∧
       btree.Get (StatefulBlock.Hght block) (idsByHeight j') = Some id ∧
       btree.Get (StatefulBlock.Tmstmp block) (blocks j')
       = Some (StatefulBlock.Hght block) ∧
       is_Some (blocksWithValidTxs j' !! id)).
Proof.
  intros Hp _. unfold AcceptBlock. rewrite Hp.
  split; [|split].
  - intros e'.
    destruct (Unpacked.id _); [|done].
    destruct (Unpacked.block _); [|done].
    simpl. destruct (seqLoop _ _ _ _); simpl; intros [=].
  - by intros ->.
  - intros id block -> -> Hlen. simpl.
    destruct (seqLoop_partition (Unpacked.results (rpc_UnpackBlockMessage msg))
                (StatelessBlock.Txs blk) 0 ∅ []) as (m' & -> & _).
    { lia. }
    { intros ns. by rewrite lookup_empty. }
    eexists. split; [reflexivity|].
    rewrite headers_at_insert, decide_True by done. simpl.
    rewrite !Get_Set_eq, lookup_insert_eq. by eauto.
Qed.

(** At the failing inputs of C5, from the new server: the block at height 4,
    which the decoder rejects with nil pointers, makes the call panic; the
    block at height 5, decoded with an error next to it, is indexed and the
    call returns nil. *)
Lemma unpack_error_not_surfaced_witness :
  (@AcceptBlock failing_ext NewJSONRPCServer
     (StatelessBlock.mk (plainBlock 4 400)) = (Panic, NewJSONRPCServer)) ∧
  (∀ e', (@AcceptBlock failing_ext NewJSONRPCServer
            (StatelessBlock.mk (plainBlock 5 500))).1 ≠ Return (Some e')) ∧
  idsByHeight (@AcceptBlock failing_ext NewJSONRPCServer
                 (StatelessBlock.mk (plainBlock 5 500))).2 = [(5, 50%N)].
Proof.
  split; [|split].
  - apply (@unpack_error_not_surfaced failing_ext NewJSONRPCServer
             (StatelessBlock.mk (plainBlock 4 400)) [x04]
             "invalid object"%string); by vm_compute.
  - apply (@unpack_error_not_surfaced failing_ext NewJSONRPCServer
             (StatelessBlock.mk (plainBlock 5 500)) [x05]
             "invalid object"%string); by vm_compute.
  - by vm_compute.
Defined.

Lemma qualifying_Some i tx r s :
  qualifying i tx r = Some s ↔
  Result.Success r = true ∧
  ∃ ChainId Data,
    Transaction.Action tx = SequencerMsg ChainId Data ∧
    s = SEQTransaction.mk (hex.EncodeToString ChainId) (Transaction.ID tx)
          Data (Z.of_nat i).
Proof.
  unfold qualifying. destruct (Result.Success r).
  - destruct (Transaction.Action tx) as [c d|t].
    + split.
      * intros [= <-]. split; [done|]. by exists c, d.
      * intros (_ & c' & d' & [= <- <-] & ->). done.
    + split; [done|]. by intros (_ & c' & d' & ? & _).
  - split; [done|]. by intros [? _].
Qed.

(** C6. When a block is ingested with one execution result per transaction,
    [AcceptBlock] returns nil and stores under the block's identifier a
    partition in which every namespace reads the records, in block order, of
    the transactions that succeeded and carry a sequencer message whose
    channel identifier has that namespace as its hex encoding; each record
    holds the namespace, the transaction identifier, the payload and the
    position of the transaction in the block, and no other transaction of
    the block is in any list. *)
Theorem accepted_block_partition `{External} j blk msg block id :
  rpc_PackBlockMessage blk = inr msg →
  Unpacked.block (rpc_UnpackBlockMessage msg) = Some block →
  Unpacked.id (rpc_UnpackBlockMessage msg) = Some id →
  length (Unpacked.results (rpc_UnpackBlockMessage msg))
  = length (StatelessBlock.Txs blk) →
  ∃ j' sb,
    AcceptBlock j blk = (Return None, j') ∧
    blocksWithValidTxs j' !! id = Some sb ∧
    (∀ ns, SequencerBlock.Txs sb !! ns
           = as_slice (partition_of ns
                         (qualified 0 (StatelessBlock.Txs blk)
                            (Unpacked.results (rpc_UnpackBlockMessage msg))))) ∧
    (∀ ns, StronglySorted
             (λ a b, SEQTransaction.Index a < SEQTransaction.Index b)
             (default [] (SequencerBlock.Txs sb !! ns))) ∧
    (∀ ns s,
       s ∈ default [] (SequencerBlock.Txs sb !! ns) ↔
       ∃ n tx r ChainId Data,
         StatelessBlock.Txs blk !! n = Some tx ∧
         Unpacked.results (rpc_UnpackBlockMessage msg) !! n = Some r ∧
         Result.Success r = true ∧
         Transaction.Action tx = SequencerMsg ChainId Data ∧
         hex.EncodeToString ChainId = ns ∧
         s = SEQTransaction.mk ns (Transaction.ID tx) Data (Z.of_nat n)).
Proof.
  intros Hp Hb Hid Hlen. unfold AcceptBlock. rewrite Hp, Hid, Hb. simpl.
  destruct (seqLoop_partition (Unpacked.results (rpc_UnpackBlockMessage msg))
              (StatelessBlock.Txs blk) 0 ∅ []) as (m' & -> & Hm').
  { lia. }
  { intros ns. by rewrite lookup_empty. }
  rewrite drop_0 in Hm'. simpl in Hm'.
  eexists _, _. split; [reflexivity|]. simpl.
  split; [by rewrite lookup_insert_eq|]. simpl. split; [done|]. split.
  { intros ns. rewrite Hm', default_as_slice.
    apply partition_of_ascending, qualified_ascending. }
  intros ns s. rewrite Hm', default_as_slice.
  unfold partition_of. rewrite list_elem_of_filter, elem_of_qualified.
  split.
  - intros (Hns & n & tx & r & Htx & Hr & Hq).
    apply qualifying_Some in Hq as (Hs & c & d & Hact & ->).
    simpl in Hns. subst ns. by exists n, tx, r, c, d.
  - intros (n & tx & r & c & d & Htx & Hr & Hs & Hact & Hns & ->).
    split; [done|]. exists n, tx, r. split; [done|]. split; [done|].
    apply qualifying_Some. split; [done|]. exists c, d. by rewrite Hns.
Qed.

(** Scenario C: the two successful messages of namespace [0x41] at positions
    0 and 3, the one of namespace [0x42] at position 2; the failed message
    and the action of another kind are in no list. *)
Lemma accepted_block_partition_witness :
  ∃ j' sb,
    @AcceptBlock scenarioC_ext NewJSONRPCServer
      (StatelessBlock.mk scenarioC_block) = (Return None, j') ∧
    blocksWithValidTxs j' !! 30%N = Some sb ∧
    SequencerBlock.Txs sb !! "41"%string
    = Some [SEQTransaction.mk "41" 101%N [x01] 0;
            SEQTransaction.mk "41" 104%N [x04] 3] ∧
    SequencerBlock.Txs sb !! "42"%string
    = Some [SEQTransaction.mk "42" 103%N [x03] 2] ∧
    SequencerBlock.Txs sb !! "43"%string = None.
Proof.
  destruct (@accepted_block_partition scenarioC_ext NewJSONRPCServer
              (StatelessBlock.mk scenarioC_block) [x03] scenarioC_block 30%N)
    as (j' & sb & Hacc & Hsb & Hpart & _ & _); [by vm_compute ..|].
  exists j', sb. split; [done|]. split; [done|].
  rewrite !Hpart. by vm_compute.
Defined.

(** C9. In every state reached by successful ingestions from the new server,
    each identifier the Height Index holds has a header in the Block Header
    Store: the lookup from a height to an identifier to a header does not
    fail on an indexed height. *)
Theorem indexed_heights_have_headers `{External} j h id :
  reachable j →
  btree.Get h (idsByHeight j) = Some id →
  ∃ block, headers j !! id = Some (Some block).
Proof.
  intros Hj Hg.
  destruct (reachable_headers_total j Hj h id Hg) as [block Hblk].
  exists block. unfold headers_at in Hblk.
  destruct (headers j !! id) as [[b|]|]; [|done|done].
  by injection Hblk as ->.
Qed.

Lemma indexed_heights_have_headers_witness :
  ∃ block, headers scenarioA !! 12%N = Some (Some block).
Proof.
  apply (@indexed_heights_have_headers scenarioA_ext scenarioA 2 12%N
           scenarioA_reachable).
  by vm_compute.
Defined.

(** Reading the Time Index after a [Set_]. *)
Lemma Get_Set_time (m : list (Z * uint64)) t t' h :
  btree.Get t' (btree.Set_ t h m)
  = if decide (t = t') then Some h else btree.Get t' m.
Proof.
  case_decide as Ht.
  - subst. apply Get_Set_eq.
  - by apply Get_Set_ne.
Qed.

(** C10. When two blocks with the same timestamp are ingested one after the
    other, the Time Index is what it would be had the first never been
    ingested: the timestamp maps to the height of the second block, a
    by-start-timestamp query for it starts its scan at that height, and no
    timestamp leads to the height of the first block unless one did before. *)
Theorem equal_timestamps_later_block_wins `{External}
    j blk1 blk2 j1 j2 msg1 msg2 block1 block2 :
  reachable j →
  AcceptBlock j blk1 = (Return None, j1) →
  AcceptBlock j1 blk2 = (Return None, j2) →
  rpc_PackBlockMessage blk1 = inr msg1 →
  Unpacked.block (rpc_UnpackBlockMessage msg1) = Some block1 →
  rpc_PackBlockMessage blk2 = inr msg2 →
  Unpacked.block (rpc_UnpackBlockMessage msg2) = Some block2 →
  StatefulBlock.Tmstmp block1 = StatefulBlock.Tmstmp block2 →
  blocks j2
  = btree.Set_ (StatefulBlock.Tmstmp block2) (StatefulBlock.Hght block2)
      (blocks j) ∧
  btree.Get (StatefulBlock.Tmstmp block2) (blocks j2)
  = Some (StatefulBlock.Hght block2) ∧
  (StatefulBlock.Hght block1 ≠ StatefulBlock.Hght block2 →
   (∀ t, btree.Get t (blocks j) ≠ Some (StatefulBlock.Hght block1)) →
   ∀ t, btree.Get t (blocks j2) ≠ Some (StatefulBlock.Hght block1)) ∧
  (∀ End_ reply σ, ∃ res,
      getBlockHeadersByStart j2
        (GetBlockHeadersByStartArgs.mk (StatefulBlock.Tmstmp block2) End_)
        reply σ
      = (Return None, σ ++ [res]) ∧
      BlockHeadersResponse.From res = StatefulBlock.Hght block2 ∧
      BlockHeadersResponse.Blocks res
      = window_blocks j2 (StatefulBlock.Hght block2) End_).
Proof.
  intros Hj Hacc1 Hacc2 Hp1 Hb1 Hp2 Hb2 Hts.
  assert (reachable j2) as Hj2.
  { eapply reachable_accept; [|exact Hacc2]. by eapply reachable_accept. }
  apply AcceptBlock_ok_inv in Hacc1
    as (m1 & b1 & id1 & seq1 & Hp1' & Hb1' & _ & _ & ->).
  apply AcceptBlock_ok_inv in Hacc2
    as (m2 & b2 & id2 & seq2 & Hp2' & Hb2' & _ & _ & ->).
  rewrite Hp1 in Hp1'. injection Hp1' as <-.
  rewrite Hp2 in Hp2'. injection Hp2' as <-.
  rewrite Hb1 in Hb1'. injection Hb1' as <-.
  rewrite Hb2 in Hb2'. injection Hb2' as <-.
  cbn [blocks] in *.
  assert (btree.Set_ (StatefulBlock.Tmstmp block2) (StatefulBlock.Hght block2)
            (btree.Set_ (StatefulBlock.Tmstmp block1)
               (StatefulBlock.Hght block1) (blocks j))
          = btree.Set_ (StatefulBlock.Tmstmp block2)
              (StatefulBlock.Hght block2) (blocks j)) as Hset.
  { rewrite Hts. apply Set_Set. }
  split; [done|]. split; [by rewrite Hset, Get_Set_eq|]. split.
  - intros Hne Hold t. rewrite Hset, Get_Set_time.
    case_decide; [congruence|apply Hold].
  - intros End_ reply σ.
    rewrite by_start_window by done.
    cbn [GetBlockHeadersByStartArgs.Start GetBlockHeadersByStartArgs.End_ blocks].
    rewrite Hset, Get_Set_eq. eexists. split; [reflexivity|]. by simpl.
Qed.

(** Two blocks with timestamp 100 at heights 0 and 1, ingested into the new
    server: the Time Index holds the one entry (100, 1), no timestamp leads
    to height 0, and the query for timestamp 100 starts at height 1. *)
Lemma equal_timestamps_later_block_wins_witness :
  blocks twins_second = [(100, 1)] ∧
  btree.Get 100 (blocks twins_second) = Some 1 ∧
  (∀ t, btree.Get t (blocks twins_second) ≠ Some 0) ∧
  ∃ res,
    getBlockHeadersByStart twins_second
      (GetBlockHeadersByStartArgs.mk 100 1000) 0%nat []
    = (Return None, [res]) ∧
    BlockHeadersResponse.From res = 1 ∧
    BlockHeadersResponse.Blocks res = [BlockInfo.mk 11%N].
Proof.
  destruct (@equal_timestamps_later_block_wins twins_ext NewJSONRPCServer
              (StatelessBlock.mk (plainBlock 0 100))
              (StatelessBlock.mk (plainBlock 1 100))
              twins_first twins_second [x00] [x01]
              (plainBlock 0 100) (plainBlock 1 100))
    as (Hset & Hget & Hgone & Hquery); [constructor|by vm_compute ..|].
  split; [exact Hset|]. split; [exact Hget|]. split.
  - apply Hgone; [done|]. intros t. by simpl.
  - destruct (Hquery 1000 0%nat []) as (res & Hres & Hfrom & Hblocks).
    exists res. split; [exact Hres|]. split; [exact Hfrom|].
    rewrite Hblocks. by vm_compute.
Defined.

(** * Further properties of the index *)

(** ** Ingestion: what a call leaves behind *)

Lemma scenarioC_accept :
  @AcceptBlock scenarioC_ext NewJSONRPCServer (StatelessBlock.mk scenarioC_block)
  = (Return None, scenarioC).
Proof. by vm_compute. Qed.

(** X1. A call of [AcceptBlock] that returns nil makes the block findable
    through every structure: its header is stored under its identifier, the
    Height Index maps its height to the identifier, the Time Index maps its
    timestamp to its height, and a partition is stored under the identifier
    that carries the state root, parent, timestamp and height of the block
    the caller passed. *)
Theorem accept_then_lookup `{External} j blk j' :
  AcceptBlock j blk = (Return None, j') →
  ∃ msg block id sb,
    rpc_PackBlockMessage blk = inr msg ∧
    Unpacked.block (rpc_UnpackBlockMessage msg) = Some block ∧
    Unpacked.id (rpc_UnpackBlockMessage msg) = Some id ∧
    headers_at j' id = Some block ∧
    btree.Get (StatefulBlock.Hght block) (idsByHeight j') = Some id ∧
    btree.Get (StatefulBlock.Tmstmp block) (blocks j')
    = Some (StatefulBlock.Hght block) ∧
    blocksWithValidTxs j' !! id = Some sb ∧
    SequencerBlock.StateRoot sb = StatelessBlock.StateRoot blk ∧
    SequencerBlock.Prnt sb = StatelessBlock.Prnt blk ∧
    SequencerBlock.Tmstmp sb = StatelessBlock.Tmstmp blk ∧
    SequencerBlock.Hght sb = StatelessBlock.Hght blk.
Proof.
  intros Hacc.
  apply AcceptBlock_ok_inv in Hacc
    as (msg & block & id & seq & Hp & Hb & Hid & _ & ->).
  eexists msg, block, id, _. split; [done|]. split; [done|]. split; [done|].
  rewrite headers_at_insert, decide_True by done. simpl.
  rewrite !Get_Set_eq, lookup_insert_eq. by repeat split.
Qed.

Lemma accept_then_lookup_witness :
  ∃ msg block id sb,
    rpc_PackBlockMessage (External := scenarioC_ext)
      (StatelessBlock.mk scenarioC_block) = inr msg ∧
    Unpacked.block (rpc_UnpackBlockMessage (External := scenarioC_ext) msg)
    = Some block ∧
    Unpacked.id (rpc_UnpackBlockMessage (External := scenarioC_ext) msg)
    = Some id ∧
    headers_at scenarioC id = Some block ∧
    btree.Get (StatefulBlock.Hght block) (idsByHeight scenarioC) = Some id ∧
    btree.Get (StatefulBlock.Tmstmp block) (blocks scenarioC)
    = Some (StatefulBlock.Hght block) ∧
    blocksWithValidTxs scenarioC !! id = Some sb ∧
    SequencerBlock.StateRoot sb = 7%N ∧
    SequencerBlock.Prnt sb = 29%N ∧
    SequencerBlock.Tmstmp sb = 300 ∧
    SequencerBlock.Hght sb = 3.
Proof.
  exact (@accept_then_lookup scenarioC_ext NewJSONRPCServer
           (StatelessBlock.mk scenarioC_block) scenarioC scenarioC_accept).
Defined.

(** X2. A call of [AcceptBlock] that returns nil changes nothing but the
    entries of the block and identifier the decoder yields for the packed
    message: every identifier other than that one keeps its header and its
    partition, every height other than the decoded block's keeps its
    identifier, every timestamp other than the decoded block's keeps its
    height. *)
Theorem accept_frame `{External} j blk j' :
  AcceptBlock j blk = (Return None, j') →
  ∃ msg block id,
    rpc_PackBlockMessage blk = inr msg ∧
    Unpacked.block (rpc_UnpackBlockMessage msg) = Some block ∧
    Unpacked.id (rpc_UnpackBlockMessage msg) = Some id ∧
    (∀ id0, id0 ≠ id →
       headers_at j' id0 = headers_at j id0 ∧
       blocksWithValidTxs j' !! id0 = blocksWithValidTxs j !! id0) ∧
    (∀ h, h ≠ StatefulBlock.Hght block →
       btree.Get h (idsByHeight j') = btree.Get h (idsByHeight j)) ∧
    (∀ t, t ≠ StatefulBlock.Tmstmp block →
       btree.Get t (blocks j') = btree.Get t (blocks j)).
Proof.
  intros Hacc.
  apply AcceptBlock_ok_inv in Hacc
    as (msg & block & id & seq & Hp & Hb & Hid & _ & ->).
  exists msg, block, id.
  split; [done|]. split; [done|]. split; [done|]. split; [|split].
  - intros id0 Hne. rewrite headers_at_insert, decide_False by done.
    simpl. by rewrite lookup_insert_ne.
  - intros h Hne. simpl. by rewrite Get_Set_ne.
  - intros t Hne. simpl. by rewrite Get_Set_ne.
Qed.

Lemma scenarioA_last_accept :
  @AcceptBlock scenarioA_ext scenarioA_prefix
    (StatelessBlock.mk (plainBlock 2 220))
  = (Return None, scenarioA).
Proof. by vm_compute. Qed.

(** The third block of Scenario A (height 2, timestamp 220, identifier 12)
    ingested after the first two: the headers 10 and 11, the heights 0 and 1
    and the timestamps 100 and 150 read as before. *)
Lemma accept_frame_witness :
  (headers_at scenarioA_prefix 10%N = Some (plainBlock 0 100) ∧
   btree.Get 1 (idsByHeight scenarioA_prefix) = Some 11%N ∧
   btree.Get 150 (blocks scenarioA_prefix) = Some 1) ∧
  headers_at scenarioA 10%N = headers_at scenarioA_prefix 10%N ∧
  blocksWithValidTxs scenarioA !! 10%N
  = blocksWithValidTxs scenarioA_prefix !! 10%N ∧
  btree.Get 1 (idsByHeight scenarioA) = btree.Get 1 (idsByHeight scenarioA_prefix) ∧
  btree.Get 150 (blocks scenarioA) = btree.Get 150 (blocks scenarioA_prefix).
Proof.
  split; [by vm_compute|].
  destruct (@accept_frame scenarioA_ext scenarioA_prefix
              (StatelessBlock.mk (plainBlock 2 220)) scenarioA
              scenarioA_last_accept)
    as (msg & block & id & Hp & Hb & Hid & Hids & Hheights & Htimes).
  injection Hp as <-.
  injection Hb as <-. injection Hid as <-.
  destruct (Hids 10%N) as [Hh Hpart]; [done|].
  split; [exact Hh|]. split; [exact Hpart|]. split.
  - by apply Hheights.
  - by apply Htimes.
Defined.

(** X3. Ingestion is idempotent: passing to [AcceptBlock] again the block a
    call has just accepted returns nil and leaves the server exactly as the
    first call left it. *)
Theorem accept_twice `{External} j blk j' :
  AcceptBlock j blk = (Return None, j') →
  AcceptBlock j' blk = (Return None, j').
Proof.
  intros Hacc.
  apply AcceptBlock_ok_inv in Hacc
    as (msg & block & id & seq & Hp & Hb & Hid & Hloop & ->).
  unfold AcceptBlock. rewrite Hp, Hid, Hb. simpl. rewrite Hloop.
  by rewrite !insert_insert_eq, !Set_Set.
Qed.

Lemma accept_twice_witness :
  @AcceptBlock scenarioC_ext scenarioC (StatelessBlock.mk scenarioC_block)
  = (Return None, scenarioC).
Proof.
  exact (@accept_twice scenarioC_ext NewJSONRPCServer
           (StatelessBlock.mk scenarioC_block) scenarioC scenarioC_accept).
Defined.

Lemma seqLoop_short results txs i m :
  (i ≤ length results)%nat → (length results < i + length txs)%nat →
  seqLoop results i txs m = None.
Proof.
  revert i m. induction txs as [|tx txs IH]; intros i m Hi Hlen; simpl in *.
  - lia.
  - destruct (results !! i) as [r|] eqn:Hr; [|done].
    apply lookup_lt_Some in Hr. apply IH; lia.
Qed.

(** X4. When the decoder yields fewer results than the block has
    transactions, [AcceptBlock] panics at [results[i]] after it has stored
    the header and written both indices: the height and the timestamp are
    indexed and the header is stored, the partition store is as before. *)
Theorem accept_short_results `{External} j blk msg block id :
  rpc_PackBlockMessage blk = inr msg →
  Unpacked.block (rpc_UnpackBlockMessage msg) = Some block →
  Unpacked.id (rpc_UnpackBlockMessage msg) = Some id →
  (length (Unpacked.results (rpc_UnpackBlockMessage msg))
   < length (StatelessBlock.Txs blk))%nat →
  ∃ j', AcceptBlock j blk = (Panic, j') ∧
    headers_at j' id = Some block ∧
    btree.Get (StatefulBlock.Hght block) (idsByHeight j') = Some id ∧
    btree.Get (StatefulBlock.Tmstmp block) (blocks j')
    = Some (StatefulBlock.Hght block) ∧
    blocksWithValidTxs j' = blocksWithValidTxs j.
Proof.
  intros Hp Hb Hid Hlen. unfold AcceptBlock. rewrite Hp, Hid, Hb. simpl.
  rewrite seqLoop_short by (simpl; lia).
  eexists. split; [reflexivity|].
  rewrite headers_at_insert, decide_True by done. simpl.
  by rewrite !Get_Set_eq.
Qed.

Lemma accept_short_results_witness :
  ∃ j', @AcceptBlock short_ext NewJSONRPCServer
          (StatelessBlock.mk scenarioC_block) = (Panic, j') ∧
    headers_at j' 30%N = Some scenarioC_block ∧
    btree.Get 3 (idsByHeight j') = Some 30%N ∧
    btree.Get 300 (blocks j') = Some 3 ∧
    blocksWithValidTxs j' = blocksWithValidTxs NewJSONRPCServer.
Proof.
  apply (@accept_short_results short_ext NewJSONRPCServer
           (StatelessBlock.mk scenarioC_block) [x03] scenarioC_block 30%N);
    [by vm_compute ..|simpl; lia].
Defined.

(** X5. When the decoder yields an identifier and a nil block,
    [AcceptBlock] stores the nil pointer under the identifier and panics at
    [block.Hght]: a header the store held under that identifier is lost,
    while the indices and the partition store are as before. *)
Theorem accept_nil_block `{External} j blk msg id :
  rpc_PackBlockMessage blk = inr msg →
  Unpacked.block (rpc_UnpackBlockMessage msg) = None →
  Unpacked.id (rpc_UnpackBlockMessage msg) = Some id →
  ∃ j', AcceptBlock j blk = (Panic, j') ∧
    headers_at j' id = None ∧
    (∀ id0, id0 ≠ id → headers_at j' id0 = headers_at j id0) ∧
    idsByHeight j' = idsByHeight j ∧
    blocks j' = blocks j ∧
    blocksWithValidTxs j' = blocksWithValidTxs j.
Proof.
  intros Hp Hb Hid. unfold AcceptBlock. rewrite Hp, Hid, Hb.
  eexists. split; [reflexivity|].
  rewrite headers_at_insert, decide_True by done.
  split; [done|]. split; [|done].
  intros id0 Hne. by rewrite headers_at_insert, decide_False.
Qed.

(** After the block at height 0 is accepted under identifier 10, the failed
    decoding of another block under the same identifier leaves height 0
    indexed to an identifier without a header. *)
Lemma accept_nil_block_witness :
  is_Some (headers_at nilBlock_first 10%N) ∧
  ∃ j', @AcceptBlock nilBlock_ext nilBlock_first
          (StatelessBlock.mk (plainBlock 8 100)) = (Panic, j') ∧
    headers_at j' 10%N = None ∧
    btree.Get 0 (idsByHeight j') = Some 10%N.
Proof.
  split; [by eexists; vm_compute|].
  destruct (@accept_nil_block nilBlock_ext nilBlock_first
              (StatelessBlock.mk (plainBlock 8 100)) [x08] 10%N)
    as (j' & Hacc & Hnone & _ & Hids & _); [by vm_compute ..|].
  exists j'. split; [exact Hacc|]. split; [exact Hnone|].
  rewrite Hids. by vm_compute.
Defined.

(** X6. In every state reached by successful ingestions, the Block Header
    Store and the Namespace Transaction Store hold the same identifiers, and
    no stored header is nil. *)
Theorem headers_and_partitions_agree `{External} j id :
  reachable j →
  (is_Some (headers j !! id) ↔ is_Some (blocksWithValidTxs j !! id)) ∧
  (is_Some (headers j !! id) → is_Some (headers_at j id)).
Proof.
  induction 1 as [|j blk j' _ [IH1 IH2] Hacc].
  - simpl. rewrite !lookup_empty. split; [done|]. by intros [? ?].
  - apply AcceptBlock_ok_inv in Hacc
      as (msg & block & id1 & seq & _ & _ & _ & _ & ->).
    rewrite headers_at_insert. simpl.
    destruct (decide (id1 = id)) as [->|Hne].
    + rewrite !lookup_insert_eq. split; [split; eauto|eauto].
    + by rewrite !lookup_insert_ne.
Qed.

Lemma headers_and_partitions_agree_witness :
  (is_Some (headers scenarioA !! 11%N)
   ↔ is_Some (blocksWithValidTxs scenarioA !! 11%N)) ∧
  (is_Some (headers scenarioA !! 11%N) → is_Some (headers_at scenarioA 11%N)).
Proof.
  exact (@headers_and_partitions_agree scenarioA_ext scenarioA 11%N
           scenarioA_reachable).
Defined.

(** X7. In every state reached by successful ingestions, each height the
    Time Index gives is a height of the Height Index, whose identifier has a
    header: an exact match of a start timestamp leads to a stored block. *)
Theorem time_index_heights_indexed `{External} j t h :
  reachable j →
  btree.Get t (blocks j) = Some h →
  ∃ id block,
    btree.Get h (idsByHeight j) = Some id ∧ headers_at j id = Some block.
Proof.
  intros Hj Ht.
  assert (is_Some (btree.Get h (idsByHeight j))) as [id Hid].
  { revert t h Ht. induction Hj as [|j blk j' _ IH Hacc]; intros t h Ht.
    - done.
    - apply AcceptBlock_ok_inv in Hacc
        as (msg & block & id1 & seq & _ & _ & _ & _ & ->).
      simpl in *. rewrite Get_Set_time in Ht.
      destruct (decide (StatefulBlock.Hght block = h)) as [<-|Hne].
      + rewrite Get_Set_eq. eauto.
      + rewrite Get_Set_ne by done.
        case_decide; [congruence|]. by eapply IH. }
  destruct (reachable_headers_total j Hj h id Hid) as [block Hblock].
  by exists id, block.
Qed.

Lemma time_index_heights_indexed_witness :
  ∃ id block,
    btree.Get 1 (idsByHeight scenarioA) = Some id ∧
    headers_at scenarioA id = Some block.
Proof.
  apply (@time_index_heights_indexed scenarioA_ext scenarioA 150 1
           scenarioA_reachable).
  by vm_compute.
Defined.

(** X8. When two blocks with the same height are ingested one after the
    other, the Height Index is what it would be had the first never been
    ingested, so scans meet the second block only; the header of the first
    stays in the Block Header Store when the identifiers differ. *)
Theorem equal_heights_later_block_wins `{External}
    j blk1 blk2 j1 j2 msg1 msg2 block1 block2 id1 id2 :
  AcceptBlock j blk1 = (Return None, j1) →
  AcceptBlock j1 blk2 = (Return None, j2) →
  rpc_PackBlockMessage blk1 = inr msg1 →
  Unpacked.block (rpc_UnpackBlockMessage msg1) = Some block1 →
  Unpacked.id (rpc_UnpackBlockMessage msg1) = Some id1 →
  rpc_PackBlockMessage blk2 = inr msg2 →
  Unpacked.block (rpc_UnpackBlockMessage msg2) = Some block2 →
  Unpacked.id (rpc_UnpackBlockMessage msg2) = Some id2 →
  StatefulBlock.Hght block1 = StatefulBlock.Hght block2 →
  idsByHeight j2
  = btree.Set_ (StatefulBlock.Hght block2) id2 (idsByHeight j) ∧
  btree.Get (StatefulBlock.Hght block2) (idsByHeight j2) = Some id2 ∧
  (id1 ≠ id2 → headers_at j2 id1 = Some block1).
Proof.
  intros Hacc1 Hacc2 Hp1 Hb1 Hid1 Hp2 Hb2 Hid2 Hh.
  apply AcceptBlock_ok_inv in Hacc1
    as (m1 & b1 & i1 & seq1 & Hp1' & Hb1' & Hid1' & _ & ->).
  apply AcceptBlock_ok_inv in Hacc2
    as (m2 & b2 & i2 & seq2 & Hp2' & Hb2' & Hid2' & _ & ->).
  rewrite Hp1 in Hp1'. injection Hp1' as <-.
  rewrite Hp2 in Hp2'. injection Hp2' as <-.
  rewrite Hb1 in Hb1'. injection Hb1' as <-.
  rewrite Hb2 in Hb2'. injection Hb2' as <-.
  rewrite Hid1 in Hid1'. injection Hid1' as <-.
  rewrite Hid2 in Hid2'. injection Hid2' as <-.
  assert (btree.Set_ (StatefulBlock.Hght block2) id2
            (btree.Set_ (StatefulBlock.Hght block1) id1 (idsByHeight j))
          = btree.Set_ (StatefulBlock.Hght block2) id2 (idsByHeight j))
    as Hset.
  { rewrite Hh. apply Set_Set. }
  split; [exact Hset|]. split.
  - cbn [idsByHeight]. by rewrite Hset, Get_Set_eq.
  - intros Hne.
    rewrite headers_at_insert, decide_False by done.
    by rewrite headers_at_insert, decide_True.
Qed.

Lemma equal_heights_later_block_wins_witness :
  idsByHeight fork_second = btree.Set_ 0 20%N (idsByHeight NewJSONRPCServer) ∧
  btree.Get 0 (idsByHeight fork_second) = Some 20%N ∧
  (10%N ≠ 20%N → headers_at fork_second 10%N = Some (plainBlock 0 100)).
Proof.
  apply (@equal_heights_later_block_wins fork_ext NewJSONRPCServer
           (StatelessBlock.mk (plainBlock 0 100))
           (StatelessBlock.mk (plainBlock 1 130))
           fork_first fork_second [x00] [x01]
           (plainBlock 0 100) (plainBlock 0 130) 10%N 20%N);
    by vm_compute.
Defined.

(** ** The block-header queries: edges of the window *)

Lemma seek_past {V : Type} pivot (m : list (Z * V)) :
  Forall (λ e, e.1 < pivot) m → btree.seek pivot m = [].
Proof.
  induction 1 as [|[k v] m Hk _ IH]; [done|].
  simpl in *. by destruct (Z.ltb_spec k pivot); [|lia].
Qed.

Lemma seek_Get {V : Type} k v (m : list (Z * V)) :
  btree.ascending m → btree.Get k m = Some v →
  ∃ rest, btree.seek k m = (k, v) :: rest.
Proof.
  unfold btree.ascending, btree.keys.
  induction m as [|[k0 v0] m IH]; [done|].
  intros Hs Hg. inversion Hs as [|? ? Hm Hk0]; subst.
  cbn [btree.Get btree.seek] in *.
  destruct (Z.eqb_spec k0 k) as [->|Hne].
  - injection Hg as ->. rewrite Z.ltb_irrefl. by eexists.
  - destruct (Z.ltb_spec k0 k); [by apply IH|].
    apply elem_of_Get in Hg.
    rewrite Forall_forall in Hk0.
    assert (k0 < k) by (apply Hk0; apply (list_elem_of_fmap_2 fst _ _ Hg)).
    lia.
Qed.

Lemma run_all j End_ es :
  Forall (λ e, exceeds j End_ e = false) es →
  run j End_ es = es ∧ beyond j End_ es = None.
Proof.
  induction 1 as [|e es He _ [IH1 IH2]]; [done|].
  simpl. by rewrite He, IH1, IH2.
Qed.

Lemma headersFrom_no_error j start End_ reply σ e :
  (headersFrom j start End_ reply σ).1 ≠ Return (Some e).
Proof.
  unfold headersFrom.
  destruct (btree.Ascend _ _ _ _) as [[bs nx]|]; simpl; congruence.
Qed.

(** X9. A by-height query from a height above every indexed height, with no
    entry at the height before it, returns nil and builds the empty window:
    no blocks and the zero marker for both neighbours, in any state of the
    server, whatever headers it holds. *)
Theorem by_height_past_the_index j start End_ reply σ :
  Forall (λ e, e.1 < start) (idsByHeight j) →
  btree.Get (uint64_sub start 1) (idsByHeight j) = None →
  getBlockHeadersByHeight j (GetBlockHeadersByHeightArgs.mk start End_) reply σ
  = (Return None,
     σ ++ [BlockHeadersResponse.mk start [] BlockInfo.zero BlockInfo.zero]).
Proof.
  intros Hpast Hprev. unfold getBlockHeadersByHeight, headersFrom, btree.Ascend.
  simpl. by rewrite Hprev, seek_past.
Qed.

(** Scenario B of the specification, on the index of Scenario A: height 5
    was never ingested, and neither was height 4. *)
Lemma by_height_past_the_index_witness :
  getBlockHeadersByHeight scenarioA (GetBlockHeadersByHeightArgs.mk 5 180)
    0%nat [BlockHeadersResponse.zero]
  = (Return None,
     [BlockHeadersResponse.zero]
     ++ [BlockHeadersResponse.mk 5 [] BlockInfo.zero BlockInfo.zero]).
Proof.
  apply (by_height_past_the_index scenarioA 5 180 0%nat
           [BlockHeadersResponse.zero]).
  - repeat constructor.
  - by vm_compute.
Defined.

(** X10. When no block from the start height on has a timestamp above the
    end bound, the by-height query lists every entry of the Height Index from
    the start height on whose header records its height, and [Next] is the
    zero marker. *)
Theorem by_height_bound_not_reached `{External} j args reply σ :
  reachable j →
  Forall
    (λ e, exceeds j (GetBlockHeadersByHeightArgs.End_ args) e = false)
    (visited j (GetBlockHeadersByHeightArgs.Height args)) →
  ∃ res,
    getBlockHeadersByHeight j args reply σ = (Return None, σ ++ [res]) ∧
    BlockHeadersResponse.Blocks res
    = infos (filter (λ e, consistent j e)
               (visited j (GetBlockHeadersByHeightArgs.Height args))) ∧
    BlockHeadersResponse.Next res = BlockInfo.zero.
Proof.
  intros Hj Hall.
  pose proof (reachable_ascending j Hj) as [Hasc _].
  pose proof (reachable_headers_total j Hj) as Htot.
  unfold getBlockHeadersByHeight. rewrite headersFrom_window by done.
  eexists. split; [reflexivity|]. simpl.
  unfold window_blocks, window_next.
  destruct (run_all _ _ _ Hall) as [-> ->]. simpl.
  by rewrite app_nil_r.
Qed.

Lemma by_height_bound_not_reached_witness :
  ∃ res,
    getBlockHeadersByHeight scenarioA (GetBlockHeadersByHeightArgs.mk 1 500)
      0%nat []
    = (Return None, [] ++ [res]) ∧
    BlockHeadersResponse.Blocks res
    = infos (filter (λ e, consistent scenarioA e) (visited scenarioA 1)) ∧
    BlockHeadersResponse.Next res = BlockInfo.zero.
Proof.
  apply (@by_height_bound_not_reached scenarioA_ext scenarioA
           (GetBlockHeadersByHeightArgs.mk 1 500) 0%nat []
           scenarioA_reachable).
  by vm_compute; repeat constructor.
Defined.

(** X11. The by-identifier query for a stored block that the Height Index
    holds at the block's own height builds a window that starts at that
    height and lists the requested block first, whatever the end bound. *)
Theorem by_id_lists_requested_block_first `{External} j args reply σ id block :
  reachable j →
  GetBlockHeadersIDArgs.ID args ≠ ""%string →
  ids_FromString (GetBlockHeadersIDArgs.ID args) = inr id →
  headers_at j id = Some block →
  btree.Get (StatefulBlock.Hght block) (idsByHeight j) = Some id →
  ∃ res rest,
    getBlockHeadersID j args reply σ = (Return None, σ ++ [res]) ∧
    BlockHeadersResponse.From res = StatefulBlock.Hght block ∧
    BlockHeadersResponse.Blocks res = BlockInfo.mk id :: rest.
Proof.
  intros Hj Hne Hid Hblk Hget.
  pose proof (reachable_ascending j Hj) as [Hasc _].
  pose proof (reachable_headers_total j Hj) as Htot.
  unfold getBlockHeadersID.
  destruct (String.eqb_spec (GetBlockHeadersIDArgs.ID args) ""); [done|].
  simpl. rewrite Hid, Hblk, headersFrom_window by done.
  destruct (seek_Get _ _ _ Hasc Hget) as [rest Hseek].
  rewrite seek_filter in Hseek by done.
  unfold window_blocks, visited. rewrite Hseek.
  cbn [run beyond].
  destruct (exceeds j _ _).
  - eexists _, _. split; [reflexivity|]. split; [done|].
    cbn [BlockHeadersResponse.Blocks].
    unfold option_list, infos. cbn [option_rect app].
    rewrite filter_cons, (consistent_eq _ _ _ _ Hblk), Z.eqb_refl.
    simpl. reflexivity.
  - eexists _, _. split; [reflexivity|]. split; [done|].
    cbn [BlockHeadersResponse.Blocks].
    unfold infos. cbn [app]. rewrite filter_cons, (consistent_eq _ _ _ _ Hblk), Z.eqb_refl.
    simpl. reflexivity.
Qed.

Lemma by_id_lists_requested_block_first_witness :
  ∃ res rest,
    @getBlockHeadersID scenarioA_ext scenarioA
      (GetBlockHeadersIDArgs.mk "h1" 0) 0%nat []
    = (Return None, [] ++ [res]) ∧
    BlockHeadersResponse.From res = 1 ∧
    BlockHeadersResponse.Blocks res = BlockInfo.mk 11%N :: rest.
Proof.
  apply (@by_id_lists_requested_block_first scenarioA_ext scenarioA
           (GetBlockHeadersIDArgs.mk "h1" 0) 0%nat [] 11%N (plainBlock 1 150)
           scenarioA_reachable); by vm_compute.
Defined.

(** X12. None of the other four queries writes the object the caller
    passed: by identifier, by start timestamp, transactions of a block and
    transactions of a namespace all leave it as it was, whatever they
    return. *)
Theorem queries_leave_reply_untouched `{External} j reply :
  (∀ args σ, (reply < length σ)%nat →
     (getBlockHeadersID j args reply σ).2 !! reply = σ !! reply) ∧
  (∀ args σ, (reply < length σ)%nat →
     (getBlockHeadersByStart j args reply σ).2 !! reply = σ !! reply) ∧
  (∀ args σ, (reply < length σ)%nat →
     (getBlockTransactions j args reply σ).2 !! reply = σ !! reply) ∧
  (∀ args σ, (reply < length σ)%nat →
     (getBlockTransactionsByNamespace j args reply σ).2 !! reply = σ !! reply).
Proof.
  split; [|split; [|split]]; intros args σ Hlt.
  - unfold getBlockHeadersID.
    destruct (negb _); [|done].
    destruct (ids_FromString _) as [e|id]; [done|].
    destruct (headers_at j id); [|done].
    by apply headersFrom_reply_untouched.
  - unfold getBlockHeadersByStart. by apply headersFrom_reply_untouched.
  - unfold getBlockTransactions.
    destruct (negb _); [done|].
    destruct (ids_FromString _) as [e|id]; [done|].
    destruct (headers_at j id); [|done].
    simpl. by rewrite lookup_app_l.
  - unfold getBlockTransactionsByNamespace.
    destruct (negb _); [done|].
    destruct (ids_FromString _) as [e|id]; [done|].
    destruct (blocksWithValidTxs j !! id); [|done].
    simpl. by rewrite lookup_app_l.
Qed.

Lemma queries_leave_reply_untouched_witness :
  (@getBlockHeadersID scenarioA_ext scenarioA
     (GetBlockHeadersIDArgs.mk "h1" 180) 0%nat [BlockHeadersResponse.zero]).2
  !! 0%nat = [BlockHeadersResponse.zero] !! 0%nat.
Proof.
  apply (proj1 (@queries_leave_reply_untouched scenarioA_ext scenarioA 0%nat)).
  simpl; lia.
Defined.

(** X13. The by-identifier query returns an error exactly when the
    identifier is not empty and [ids.FromString] rejects it, and the error is
    the parser's; an identifier without a stored block is never reported as
    an error. *)
Theorem by_id_error_iff `{External} j args reply σ e :
  (getBlockHeadersID j args reply σ).1 = Return (Some e) ↔
  GetBlockHeadersIDArgs.ID args ≠ ""%string ∧
  ids_FromString (GetBlockHeadersIDArgs.ID args) = inl e.
Proof.
  unfold getBlockHeadersID.
  destruct (String.eqb_spec (GetBlockHeadersIDArgs.ID args) "") as [Heq|Hne];
    simpl.
  - split; [done|]. by intros [? _].
  - destruct (ids_FromString _) as [e'|id]; simpl.
    + split; [by intros [= ->]|]. by intros [_ [= ->]].
    + split; [|by intros [_ ?]].
      destruct (headers_at j id); [|done].
      intros Herr. by apply headersFrom_no_error in Herr.
Qed.

(** X14. The two transaction queries return an error exactly when the
    identifier is empty and [ids.FromString] rejects the empty string: an
    identifier that is not empty is never parsed, so a malformed one is not
    reported. *)
Theorem transaction_queries_error_iff `{External} j reply e :
  (∀ args σ,
     (getBlockTransactions j args reply σ).1 = Return (Some e) ↔
     GetBlockTransactionsArgs.ID args = ""%string ∧
     ids_FromString ""%string = inl e) ∧
  (∀ args σ,
     (getBlockTransactionsByNamespace j args reply σ).1 = Return (Some e) ↔
     GetBlockTransactionsByNamespaceArgs.ID args = ""%string ∧
     ids_FromString ""%string = inl e).
Proof.
  split; intros args σ.
  - unfold getBlockTransactions.
    destruct (String.eqb_spec (GetBlockTransactionsArgs.ID args) "")
      as [->|Hne]; simpl.
    + destruct (ids_FromString "") as [e'|id]; simpl.
      * split; [by intros [= ->]|]. by intros [_ [= ->]].
      * split; [|by intros [_ ?]]. by destruct (headers_at j id).
    + split; [done|]. by intros [? _].
  - unfold getBlockTransactionsByNamespace.
    destruct (String.eqb_spec (GetBlockTransactionsByNamespaceArgs.ID args) "")
      as [->|Hne]; simpl.
    + destruct (ids_FromString "") as [e'|id]; simpl.
      * split; [by intros [= ->]|]. by intros [_ [= ->]].
      * split; [|by intros [_ ?]]. by destruct (blocksWithValidTxs j !! id).
    + split; [done|]. by intros [? _].
Qed.

(** ** Namespaces *)






(** The namespace key is twice as long as the channel identifier. *)
Lemma hex_EncodeToString_length (src : list byte) :
  String.length (hex.EncodeToString src) = (2 * length src)%nat.
Proof.
  induction src as [|v src IH]; [done|].
  cbn [hex.EncodeToString String.length length]. rewrite IH. lia.
Qed.

(** ** The state queries *)

Lemma assign_valid {A : Type} reply (upd : A → A) (σ : store A) r0 :
  σ !! reply = Some r0 → assign reply upd σ = Some (<[reply := upd r0]> σ).
Proof. intros Hr. unfold assign. by rewrite Hr. Qed.

(** X16. [Tx] writes through the pointer, all or nothing: when the
    controller finds the transaction without error, the call returns nil and
    the caller's object holds the timestamp, success flag, units and fee of
    the controller, every other object being as before; otherwise it returns
    the controller's error, or [ErrTxNotFound] when there is none, and the
    store is as before. *)
Theorem Tx_all_or_nothing `{Controller} args reply σ r0 :
  σ !! reply = Some r0 →
  let r := GetTransaction (TxArgs.TxID args) in
  (TxLookup.err r = None → TxLookup.found r = true →
   (Tx args reply σ).1 = Return None ∧
   (Tx args reply σ).2 !! reply
   = Some (TxReply.mk (TxLookup.timestamp r) (TxLookup.success r)
             (TxLookup.units r) (TxLookup.fee r)) ∧
   ∀ p, p ≠ reply → (Tx args reply σ).2 !! p = σ !! p) ∧
  (∀ e, TxLookup.err r = Some e → Tx args reply σ = (Return (Some e), σ)) ∧
  (TxLookup.err r = None → TxLookup.found r = false →
   Tx args reply σ = (Return (Some ErrTxNotFound), σ)).
Proof.
  intros Hr r. unfold Tx. fold r. split; [|split].
  - intros -> ->. simpl. rewrite (assign_valid _ _ _ _ Hr). simpl.
    split; [done|]. split.
    + apply list_lookup_insert_eq. by eapply lookup_lt_Some.
    + intros p Hp. by apply list_lookup_insert_ne.
  - by intros e ->.
  - by intros -> ->.
Qed.

Lemma Tx_all_or_nothing_witness :
  (@Tx exampleController (TxArgs.mk 1%N) 0%nat [TxReply.zero]).1 = Return None ∧
  (@Tx exampleController (TxArgs.mk 1%N) 0%nat [TxReply.zero]).2 !! 0%nat
  = Some (TxReply.mk 100 true [1; 2; 3; 4; 5] 7) ∧
  @Tx exampleController (TxArgs.mk 3%N) 0%nat [TxReply.zero]
  = (Return (Some "tx not found"%string), [TxReply.zero]).
Proof.
  destruct (@Tx_all_or_nothing exampleController (TxArgs.mk 1%N) 0%nat
              [TxReply.zero] TxReply.zero eq_refl) as (Hok & _ & _).
  destruct (Hok eq_refl eq_refl) as (Hout & Hval & _).
  destruct (@Tx_all_or_nothing exampleController (TxArgs.mk 3%N) 0%nat
              [TxReply.zero] TxReply.zero eq_refl) as (_ & _ & Hmiss).
  split; [exact Hout|]. split; [exact Hval|]. exact (Hmiss eq_refl eq_refl).
Defined.

(** X17. [Asset] follows the same protocol: an asset the controller reads
    without error and reports as existing is written into the caller's
    object, the owner as the address [utils.Address] renders, and nil is
    returned; a controller error is returned as it is, a missing asset is
    [ErrAssetNotFound], and in both cases nothing is written. *)
Theorem Asset_all_or_nothing `{Controller} args reply σ r0 :
  σ !! reply = Some r0 →
  let r := GetAssetFromState (AssetArgs.Asset args) in
  (AssetLookup.err r = None → AssetLookup.exists_ r = true →
   (Asset args reply σ).1 = Return None ∧
   (Asset args reply σ).2 !! reply
   = Some (AssetReply.mk (AssetLookup.symbol r) (AssetLookup.decimals r)
             (AssetLookup.metadata r) (AssetLookup.supply r)
             (utils_Address (AssetLookup.owner r)) (AssetLookup.warp r)) ∧
   ∀ p, p ≠ reply → (Asset args reply σ).2 !! p = σ !! p) ∧
  (∀ e, AssetLookup.err r = Some e →
        Asset args reply σ = (Return (Some e), σ)) ∧
  (AssetLookup.err r = None → AssetLookup.exists_ r = false →
   Asset args reply σ = (Return (Some ErrAssetNotFound), σ)).
Proof.
  intros Hr r. unfold Asset. fold r. split; [|split].
  - intros Herr ->. rewrite Herr. simpl.
    rewrite (assign_valid _ _ _ _ Hr). simpl.
    split; [done|]. split.
    + apply list_lookup_insert_eq. by eapply lookup_lt_Some.
    + intros p Hp. by apply list_lookup_insert_ne.
  - by intros e ->.
  - by intros -> ->.
Qed.

Lemma Asset_all_or_nothing_witness :
  (@Asset exampleController (AssetArgs.mk 2%N) 0%nat [AssetReply.zero]).2
  !! 0%nat
  = Some (AssetReply.mk ["S"%byte] 9 [] 1000 "alice" false) ∧
  @Asset exampleController (AssetArgs.mk 9%N) 0%nat [AssetReply.zero]
  = (Return (Some "state closed"%string), [AssetReply.zero]) ∧
  @Asset exampleController (AssetArgs.mk 3%N) 0%nat [AssetReply.zero]
  = (Return (Some "asset not found"%string), [AssetReply.zero]).
Proof.
  destruct (@Asset_all_or_nothing exampleController (AssetArgs.mk 2%N) 0%nat
              [AssetReply.zero] AssetReply.zero eq_refl) as (Hok & _ & _).
  destruct (Hok eq_refl eq_refl) as (_ & Hval & _).
  destruct (@Asset_all_or_nothing exampleController (AssetArgs.mk 9%N) 0%nat
              [AssetReply.zero] AssetReply.zero eq_refl) as (_ & Herr & _).
  destruct (@Asset_all_or_nothing exampleController (AssetArgs.mk 3%N) 0%nat
              [AssetReply.zero] AssetReply.zero eq_refl) as (_ & _ & Hmiss).
  split; [exact Hval|]. split.
  - exact (Herr "state closed"%string eq_refl).
  - exact (Hmiss eq_refl eq_refl).
Defined.

(** X18. [Balance] returns an error exactly when the address does not parse
    or, for an address that parses, when the controller fails; the error is
    the parser's or the controller's, and nothing is written. Otherwise it
    returns nil and the caller's object holds the controller's balance. *)
Theorem Balance_result `{Controller} args reply σ r0 :
  σ !! reply = Some r0 →
  (∀ e, (Balance args reply σ).1 = Return (Some e) ↔
        utils_ParseAddress (BalanceArgs.Address args) = inl e ∨
        ∃ addr, utils_ParseAddress (BalanceArgs.Address args) = inr addr ∧
                (GetBalanceFromState addr (BalanceArgs.Asset args)).2 = Some e) ∧
  (∀ e, (Balance args reply σ).1 = Return (Some e) →
        (Balance args reply σ).2 = σ) ∧
  (∀ addr, utils_ParseAddress (BalanceArgs.Address args) = inr addr →
           (GetBalanceFromState addr (BalanceArgs.Asset args)).2 = None →
           Balance args reply σ
           = (Return None,
              <[reply := BalanceReply.mk
                           (GetBalanceFromState addr (BalanceArgs.Asset args)).1]>
                σ)).
Proof.
  intros Hr. unfold Balance.
  destruct (utils_ParseAddress _) as [e0|addr]; simpl.
  - split; [|split].
    + intros e. split.
      * intros [= ->]. by left.
      * intros [[= ->]|(addr & ? & _)]; done.
    + done.
    + done.
  - destruct (GetBalanceFromState addr _) as [balance [e0|]] eqn:Hb; simpl.
    + split; [|split].
      * intros e. split.
        -- intros [= ->]. right. exists addr. by rewrite Hb.
        -- intros [?|(addr' & [= <-] & He)]; [done|].
           rewrite Hb in He. simpl in He. by injection He as ->.
      * done.
      * intros addr' [= <-]. by rewrite Hb.
    + rewrite (assign_valid _ _ _ _ Hr). simpl. split; [|split].
      * intros e. split; [done|].
        intros [?|(addr' & [= <-] & He)]; [done|]. by rewrite Hb in He.
      * done.
      * intros addr' [= <-] _. by rewrite Hb.
Qed.

Lemma Balance_result_witness :
  @Balance exampleController (BalanceArgs.mk "alice" 2%N) 0%nat
    [BalanceReply.zero]
  = (Return None, [BalanceReply.mk 40]) ∧
  (@Balance exampleController (BalanceArgs.mk "bob" 2%N) 0%nat
     [BalanceReply.zero]).1 = Return (Some "invalid address"%string).
Proof.
  destruct (@Balance_result exampleController (BalanceArgs.mk "alice" 2%N)
              0%nat [BalanceReply.zero] BalanceReply.zero eq_refl)
    as (_ & _ & Hok).
  destruct (@Balance_result exampleController (BalanceArgs.mk "bob" 2%N)
              0%nat [BalanceReply.zero] BalanceReply.zero eq_refl)
    as (Herr & _ & _).
  split.
  - exact (Hok ["a"%byte] eq_refl eq_refl).
  - apply Herr. by left.
Defined.

(** [Loan] returns the controller's error and writes nothing, or
    returns nil with the controller's amount in the caller's object; the
    controller is asked with the asset first and the destination second. *)
Lemma Loan_result `{Controller} args reply σ r0 :
  σ !! reply = Some r0 →
  Loan args reply σ
  = match (GetLoanFromState (LoanArgs.Asset args)
             (LoanArgs.Destination args)).2 with
    | Some e => (Return (Some e), σ)
    | None =>
        (Return None,
         <[reply := LoanReply.mk
                      (GetLoanFromState (LoanArgs.Asset args)
                         (LoanArgs.Destination args)).1]> σ)
    end.
Proof.
  intros Hr. unfold Loan.
  destruct (GetLoanFromState _ _) as [amount [e|]]; simpl; [done|].
  by rewrite (assign_valid _ _ _ _ Hr).
Qed.

(** ** The window lists indexed blocks only *)

Lemma elem_of_run j End_ es e :
  e ∈ run j End_ es → e ∈ es ∧ exceeds j End_ e = false.
Proof.
  induction es as [|e0 es IH]; simpl; [by intros ?%elem_of_nil|].
  destruct (exceeds j End_ e0) eqn:He0; [by intros ?%elem_of_nil|].
  intros [->|Hin]%elem_of_cons.
  - split; [by left|done].
  - destruct (IH Hin). split; [by right|done].
Qed.

Lemma beyond_Some j End_ es e :
  beyond j End_ es = Some e → e ∈ es ∧ exceeds j End_ e = true.
Proof.
  induction es as [|e0 es IH]; simpl; [done|].
  destruct (exceeds j End_ e0) eqn:He0.
  - intros [= ->]. split; [by left|done].
  - intros Hb. destruct (IH Hb). split; [by right|done].
Qed.

(** X19. Every block the by-height query lists is a block of the index: its
    identifier is the one the Height Index holds at some height from the
    start height on, its stored header records that height, and when its
    timestamp is above the end bound it is the block [Next] names. *)
Theorem by_height_lists_indexed_blocks `{External} j args reply σ :
  reachable j →
  ∃ res,
    getBlockHeadersByHeight j args reply σ = (Return None, σ ++ [res]) ∧
    ∀ b, b ∈ BlockHeadersResponse.Blocks res →
      ∃ block,
        GetBlockHeadersByHeightArgs.Height args ≤ StatefulBlock.Hght block ∧
        btree.Get (StatefulBlock.Hght block) (idsByHeight j)
        = Some (BlockInfo.BlockId b) ∧
        headers_at j (BlockInfo.BlockId b) = Some block ∧
        (GetBlockHeadersByHeightArgs.End_ args < StatefulBlock.Tmstmp block →
         BlockHeadersResponse.Next res = b).
Proof.
  intros Hj.
  pose proof (reachable_ascending j Hj) as [Hasc _].
  pose proof (reachable_headers_total j Hj) as Htot.
  unfold getBlockHeadersByHeight. rewrite headersFrom_window by done.
  eexists. split; [reflexivity|].
  cbn [BlockHeadersResponse.Blocks BlockHeadersResponse.Next].
  set (start := GetBlockHeadersByHeightArgs.Height args).
  set (bound := GetBlockHeadersByHeightArgs.End_ args).
  intros b Hb. unfold window_blocks, infos in Hb.
  apply list_elem_of_fmap in Hb as ([k id] & -> & Hin).
  apply list_elem_of_filter in Hin as [Hcons Hin].
  unfold consistent in Hcons. cbn [fst snd] in *.
  destruct (headers_at j id) as [block|] eqn:Hblk; [|done].
  apply Is_true_eq_true, Z.eqb_eq in Hcons. subst k.
  assert ((StatefulBlock.Hght block, id) ∈ visited j start ∧
          (bound < StatefulBlock.Tmstmp block →
           window_next j start bound = BlockInfo.mk id)) as [Hvis Hnext].
  { apply elem_of_app in Hin as [Hrun|Hbey].
    - apply elem_of_run in Hrun as [Hvis Hex]. split; [done|].
      unfold exceeds in Hex. cbn [snd] in Hex. rewrite Hblk in Hex.
      intros Hlt. rewrite Z.gtb_ltb in Hex. apply Z.ltb_ge in Hex. lia.
    - unfold window_next.
      destruct (beyond j bound (visited j start)) as [e|] eqn:Hbeyond;
        [|by apply elem_of_nil in Hbey].
      apply list_elem_of_singleton in Hbey as <-.
      apply beyond_Some in Hbeyond as [Hvis _]. by split. }
  apply list_elem_of_filter in Hvis as [Hge Hidx]. cbn [fst] in Hge.
  exists block. split; [done|]. split; [by apply Get_elem_of|]. by split.
Qed.

Lemma by_height_lists_indexed_blocks_witness :
  ∃ res,
    getBlockHeadersByHeight scenarioA (GetBlockHeadersByHeightArgs.mk 1 180)
      0%nat []
    = (Return None, [] ++ [res]) ∧
    ∀ b, b ∈ BlockHeadersResponse.Blocks res →
      ∃ block,
        1 ≤ StatefulBlock.Hght block ∧
        btree.Get (StatefulBlock.Hght block) (idsByHeight scenarioA)
        = Some (BlockInfo.BlockId b) ∧
        headers_at scenarioA (BlockInfo.BlockId b) = Some block ∧
        (180 < StatefulBlock.Tmstmp block →
         BlockHeadersResponse.Next res = b).
Proof.
  exact (@by_height_lists_indexed_blocks scenarioA_ext scenarioA
           (GetBlockHeadersByHeightArgs.mk 1 180) 0%nat []
           scenarioA_reachable).
Defined.
